(** * A shallow embedding of [raytracer.js] (lubert/raytracer)

    The program is a Whitted-style ray tracer over spheres.  Its kernel is
    purely numeric: every value is a JavaScript [Number], that is, an IEEE 754
    binary64 float, with [Infinity] used as a sentinel and [NaN] propagating
    silently.

    The source functions are written once, over an interface [JSNumber] of
    the arithmetic the program uses.  Two instances are given:

    - [F64]: Rocq's primitive binary64 floats.  This is what the code
      computes; every statement about the behaviour of the program is made at
      this instance.
    - [Exact]: the reals extended with [+Infinity], [-Infinity] and [NaN],
      with the same special cases but no rounding and no overflow.  It is
      used only to state the algebraic identities that the formulas satisfy
      before rounding.

    How the source is read:

    - a vector is an array of numbers, here a list; [V.map((val, i) => ...)]
      runs over the first array and reads the second by index, and a read
      past the end is [undefined], that is [NaN] in arithmetic;
    - the module-level constant [scene] is passed explicitly, and the loops
      over [scene.spheres] and [scene.lights] are left folds whose state is
      the variables the loop assigns;
    - [null] for "no sphere" is [None];
    - [traceRay] recurses on a number, not on a structure: the model carries
      a bound [fuel] on the number of activations, and [None] says that the
      bound was reached;
    - [Math.sqrt] is the correctly rounded square root; [x ** 2] is [x * x];
      the other powers are a parameter [libm_pow].

    Of the boundary of the file, [mul], [canvasToViewport] (with the size
    of the canvas as parameters) and the body of the loop of [render] are
    modelled.  The loops of [render] themselves ([Math.floor] over the
    size of the canvas) and [putPixel] (the drawing context of the DOM) are
    not. *)

From Stdlib Require Import ZArith List Bool Lia Floats Reals Lra.
From Stdlib Require Uint63.
Import ListNotations.

Set Implicit Arguments.

(* ================================================================= *)
(** ** Numbers *)

(** The operations of a JavaScript [Number] that the program uses. *)
Class JSNumber (num : Type) : Type := {
  n_lit : Z -> num;                 (* an integer literal *)
  n_infinity : num;                 (* [Infinity] *)
  n_nan : num;                      (* [NaN], what [undefined] is in arithmetic *)
  n_add : num -> num -> num;        (* [a + b] *)
  n_sub : num -> num -> num;        (* [a - b] *)
  n_mul : num -> num -> num;        (* [a * b] *)
  n_div : num -> num -> num;        (* [a / b] *)
  n_neg : num -> num;               (* unary [-a] *)
  n_sqrt : num -> num;              (* [Math.sqrt(a)] *)
  n_pow : num -> num -> num;        (* [a ** b] and [Math.pow(a, b)] *)
  n_lt : num -> num -> bool;        (* [a < b]; [a > b] is [n_lt b a] *)
  n_le : num -> num -> bool;        (* [a <= b] *)
  n_eq : num -> num -> bool         (* [a === b] *)
}.

(** [**] and [Math.pow] are left to the implementation by the language
    standard, special cases apart; [libm_pow] is the engine's function. *)
Class Libm (num : Type) : Type := libm_pow : num -> num -> num.

Declare Scope js_scope.
Delimit Scope js_scope with js.
Infix "+" := n_add : js_scope.
Infix "-" := n_sub : js_scope.
Infix "*" := n_mul : js_scope.
Infix "/" := n_div : js_scope.
Infix "**" := n_pow (at level 30, right associativity) : js_scope.
Notation "- a" := (n_neg a) : js_scope.
Infix "<?" := n_lt : js_scope.
Infix "<=?" := n_le : js_scope.
Notation "a >? b" := (n_lt b a) (only parsing) : js_scope.
Infix "===" := n_eq (at level 70, no associativity) : js_scope.

(** The facts about [<] that the nearest-hit search rests on.  They hold for
    IEEE comparison, [NaN] included (every comparison with [NaN] is false). *)
Class JSNumberOrder (num : Type) {ops : JSNumber num} : Prop := {
  n_lt_irrefl : forall a : num, n_lt a a = false;
  n_lt_trans : forall a b c : num,
      n_lt a b = true -> n_lt b c = true -> n_lt a c = true;
  n_lt_top : forall a b : num, n_lt a b = true -> n_lt a n_infinity = true
}.

Arguments JSNumberOrder num {ops}.

(* ================================================================= *)
(** ** The scene *)

Section Model.
Context {num : Type} {ops : JSNumber num}.
Local Open Scope js_scope.

(** A vector is a JavaScript array of numbers. *)
Definition vec := list num.

Record Sphere := {
  center : vec;
  radius : num;
  color : vec;
  specular : num;
  reflective : num
}.

(** [light.type] is one of ['ambient'], ['point'], ['directional'] (the
    source takes every light that is neither ambient nor a point light for
    a directional one). *)
Inductive Light :=
| Ambient (intensity : num)
| Point (intensity : num) (position : vec)
| Directional (intensity : num) (direction : vec).

Record Scene := {
  lights : list Light;
  spheres : list Sphere
}.

(** Decimal literal [m / 10^k]: numerator and denominator are exact
    doubles for every literal of the program, so the correctly rounded
    quotient is the double the literal denotes. *)
Definition dec (m : Z) (k : nat) : num := n_lit m / n_lit (10 ^ Z.of_nat k).

Definition backgroundColor : vec := [n_lit 0; n_lit 0; n_lit 0].

(** The scene of the source file. *)
Definition sourceScene : Scene := {|
  lights := [
    Ambient (dec 2 1);
    Point (dec 6 1) [n_lit 2; n_lit 1; n_lit 0];
    Directional (dec 2 1) [n_lit 1; n_lit 4; n_lit 4]
  ];
  spheres := [
    {| center := [n_lit 0; - n_lit 1; n_lit 3]; radius := n_lit 1;
       color := [n_lit 255; n_lit 0; n_lit 0];
       specular := n_lit 500; reflective := dec 2 1 |};
    {| center := [n_lit 2; n_lit 0; n_lit 4]; radius := n_lit 1;
       color := [n_lit 0; n_lit 0; n_lit 255];
       specular := n_lit 500; reflective := dec 3 1 |};
    {| center := [- n_lit 2; n_lit 0; n_lit 4]; radius := n_lit 1;
       color := [n_lit 0; n_lit 255; n_lit 0];
       specular := n_lit 10; reflective := dec 4 1 |};
    {| center := [n_lit 0; - n_lit 5001; n_lit 0]; radius := n_lit 5000;
       color := [n_lit 255; n_lit 255; n_lit 0];
       specular := n_lit 1000; reflective := dec 5 1 |};
    {| center := [n_lit 0; n_lit 2; n_lit 6]; radius := n_lit 1;
       color := [n_lit 255; n_lit 0; n_lit 255];
       specular := - n_lit 1; reflective := dec 5 1 |}
  ]
|}.

(* --------------------------------------------------------------- *)
(** *** Vector helpers *)

(** [V[i]]: reading past the end gives [undefined], which is [NaN] in
    every arithmetic operation. *)
Definition at_ (V : vec) (i : nat) : num := nth i V n_nan.

(** [V.map((val, i) => f(val, i))]. *)
Fixpoint mapi_from {A B : Type} (i : nat) (f : A -> nat -> B) (l : list A)
  : list B :=
  match l with
  | [] => []
  | val :: rest => f val i :: mapi_from (S i) f rest
  end.

Definition mapi {A B : Type} (f : A -> nat -> B) (l : list A) : list B :=
  mapi_from 0 f l.

Definition add (V1 V2 : vec) : vec := mapi (fun val i => val + at_ V2 i) V1.

Definition sub (V1 V2 : vec) : vec := mapi (fun val i => val - at_ V2 i) V1.

Definition scale (s : num) (V : vec) : vec := map (fun val => val * s) V.

(** [V.reduce((acc, val) => acc + val, 0)]. *)
Definition sum (V : vec) : num :=
  fold_left (fun acc val => acc + val) V (n_lit 0).

Definition dot (V1 V2 : vec) : num :=
  sum (mapi (fun val i => val * at_ V2 i) V1).

Definition len (V : vec) : num := n_sqrt (dot V V).

Definition reflectRay (R N : vec) : vec :=
  sub (scale (n_lit 2 * dot N R) N) R.

(* --------------------------------------------------------------- *)
(** *** Intersections *)

(** The coefficients of the quadratic in [t], named as in the source. *)
Definition coeff_k1 (D : vec) : num := dot D D.
Definition coeff_k2 (O D : vec) (sphere : Sphere) : num :=
  n_lit 2 * dot (sub O (center sphere)) D.
Definition coeff_k3 (O : vec) (sphere : Sphere) : num :=
  let OC := sub O (center sphere) in
  dot OC OC - radius sphere ** n_lit 2.
Definition discriminant (O D : vec) (sphere : Sphere) : num :=
  coeff_k2 O D sphere ** n_lit 2
  - n_lit 4 * coeff_k1 D * coeff_k3 O sphere.

Definition intersectRaySphere (O D : vec) (sphere : Sphere) : num * num :=
  let OC := sub O (center sphere) in
  let k1 := dot D D in
  let k2 := n_lit 2 * dot OC D in
  let k3 := dot OC OC - radius sphere ** n_lit 2 in
  let discriminant := k2 ** n_lit 2 - n_lit 4 * k1 * k3 in
  if discriminant <? n_lit 0 then (n_infinity, n_infinity)
  else
    let discriminant := n_sqrt discriminant in
    let denominator := n_lit 2 * k1 in
    ((- k2 + discriminant) / denominator,
     (- k2 - discriminant) / denominator).

(** One iteration of the loop of [closestIntersection]; the state is
    [(closestSphere, closestT)]. *)
Definition closestStep (O D : vec) (tMin tMax : num)
           (st : option Sphere * num) (sphere : Sphere)
  : option Sphere * num :=
  let '(t1, t2) := intersectRaySphere O D sphere in
  let st :=
    if (t1 >? tMin) && (t1 <? tMax) && (t1 <? snd st)
    then (Some sphere, t1) else st in
  if (t2 >? tMin) && (t2 <? tMax) && (t2 <? snd st)
  then (Some sphere, t2) else st.

Definition closestIntersection (scene : Scene) (O D : vec) (tMin tMax : num)
  : option Sphere * num :=
  fold_left (closestStep O D tMin tMax) (spheres scene) (None, n_infinity).

(* --------------------------------------------------------------- *)
(** *** Lighting *)

(** The part of the loop body of [computeLighting] that the point and
    the directional light share, from the shadow check on; [None] from
    [closestIntersection] is the falsy [sphere]. *)
Definition shade (scene : Scene) (P N V : vec) (s : num)
           (i : num) (intensity : num) (L : vec) (tMax : num) : num :=
  match fst (closestIntersection scene P L (dec 1 3) tMax) with
  | Some _ => i
  | None =>
    let nDotL := dot N L in
    let i :=
      if nDotL >? n_lit 0
      then i + intensity * nDotL / (len N * len L) else i in
    if s === - n_lit 1 then i
    else
      let R := reflectRay L N in
      let rDotV := dot R V in
      if rDotV >? n_lit 0
      then i + intensity * n_pow (rDotV / (len R * len V)) s
      else i
  end.

(** One iteration of the loop of [computeLighting]; the state is [i]. *)
Definition lightStep (scene : Scene) (P N V : vec) (s : num)
           (i : num) (light : Light) : num :=
  match light with
  | Ambient intensity => i + intensity
  | Point intensity position =>
    shade scene P N V s i intensity (sub position P) (n_lit 1)
  | Directional intensity direction =>
    shade scene P N V s i intensity direction n_infinity
  end.

Definition computeLighting (scene : Scene) (P N V : vec) (s : num) : num :=
  fold_left (lightStep scene P N V s) (lights scene) (n_lit 0).

(* --------------------------------------------------------------- *)
(** *** The tracer *)

(** The values [traceRay] binds after a hit on [sphere] at distance [t]. *)
Definition hitPoint (O D : vec) (t : num) : vec := add O (scale t D).

Definition hitNormal (P : vec) (sphere : Sphere) : vec :=
  let N := sub P (center sphere) in
  scale (n_lit 1 / len N) N.

Definition localColor (scene : Scene) (O D : vec) (sphere : Sphere) (t : num)
  : vec :=
  let P := hitPoint O D t in
  let N := hitNormal P sphere in
  let V := scale (- n_lit 1) D in
  scale (computeLighting scene P N V (specular sphere)) (color sphere).

Definition blend (r : num) (localColor reflectedColor : vec) : vec :=
  add (scale (n_lit 1 - r) localColor) (scale r reflectedColor).

(** The body of [traceRay], with the recursive call as a parameter:
    [self P R tMin tMax depth] is [traceRay(P, R, tMin, tMax, depth)],
    [None] when that call does not return. *)
Definition traceRayBody
           (self : vec -> vec -> num -> num -> num -> option vec)
           (scene : Scene) (O D : vec) (tMin tMax depth : num)
  : option vec :=
  match closestIntersection scene O D tMin tMax with
  | (None, _) => Some backgroundColor
  | (Some sphere, t) =>
    let P := hitPoint O D t in
    let N := hitNormal P sphere in
    let V := scale (- n_lit 1) D in
    let localColor := localColor scene O D sphere t in
    let r := reflective sphere in
    if (depth <=? n_lit 0) || (r <=? n_lit 0) then Some localColor
    else
      let R := reflectRay V N in
      match self P R (dec 1 3) n_infinity (depth - n_lit 1) with
      | None => None
      | Some reflectedColor => Some (blend r localColor reflectedColor)
      end
  end.

(** [traceRay] with a bound on the number of nested calls: [fuel] is the
    number of activations that may be on the stack.  [None] means the
    bound was reached. *)
Fixpoint traceRay (fuel : nat) (scene : Scene) (O D : vec)
         (tMin tMax depth : num) : option vec :=
  match fuel with
  | O => None
  | S fuel' =>
    traceRayBody (fun P R tMin' tMax' depth' =>
                    traceRay fuel' scene P R tMin' tMax' depth')
                 scene O D tMin tMax depth
  end.

(** The default value of the parameter [depth]. *)
Definition defaultDepth : num := n_lit 3.

End Model.

Arguments vec num : clear implicits.
Arguments Sphere num : clear implicits.
Arguments Light num : clear implicits.
Arguments Scene num : clear implicits.

Unset Implicit Arguments.

(* ================================================================= *)
(** ** Binary64 *)

Module F64.

(** Engines compute [**] and [Math.pow] with fdlibm's [pow], which returns
    [x * x] when the exponent is [2]; the other exponents go to [libm_pow],
    about which nothing is assumed. *)
Definition pow {libm : Libm float} (x y : float) : float :=
  if PrimFloat.eqb y 2 then PrimFloat.mul x x else libm_pow x y.

Definition of_Z (z : Z) : float :=
  match z with
  | Z0 => 0%float
  | Zpos _ => PrimFloat.of_uint63 (Uint63.of_Z z)
  | Zneg p => PrimFloat.opp (PrimFloat.of_uint63 (Uint63.of_Z (Zpos p)))
  end.

#[global] Instance ops {libm : Libm float} : JSNumber float := {|
  n_lit := of_Z;
  n_infinity := infinity;
  n_nan := nan;
  n_add := PrimFloat.add;
  n_sub := PrimFloat.sub;
  n_mul := PrimFloat.mul;
  n_div := PrimFloat.div;
  n_neg := PrimFloat.opp;
  n_sqrt := PrimFloat.sqrt;
  n_pow := pow;
  n_lt := PrimFloat.ltb;
  n_le := PrimFloat.leb;
  n_eq := PrimFloat.eqb
|}.

(** A [libm_pow] to evaluate closed examples with; no example depends on
    the choice. *)
Definition no_pow : Libm float := fun _ _ => nan.

End F64.

(* ================================================================= *)
(** ** Exact arithmetic *)

Module Exact.

Local Open Scope R_scope.

(** A real number, an infinity with its sign ([true] is negative), or
    [NaN].  Zero carries no sign here: [1 / 0] is [+Infinity]. *)
Inductive xreal :=
| XNaN
| XInf (neg : bool)
| XFin (r : R).

Definition Rltb (a b : R) : bool := if Rlt_dec a b then true else false.
Definition Rleb (a b : R) : bool := if Rle_dec a b then true else false.
Definition Reqb (a b : R) : bool := if Req_dec_T a b then true else false.

Definition xneg (a : xreal) : xreal :=
  match a with
  | XNaN => XNaN
  | XInf s => XInf (negb s)
  | XFin r => XFin (- r)
  end.

Definition xadd (a b : xreal) : xreal :=
  match a, b with
  | XNaN, _ | _, XNaN => XNaN
  | XInf s, XInf s' => if Bool.eqb s s' then XInf s else XNaN
  | XInf s, XFin _ | XFin _, XInf s => XInf s
  | XFin x, XFin y => XFin (x + y)
  end.

Definition xsub (a b : xreal) : xreal := xadd a (xneg b).

Definition xmul (a b : xreal) : xreal :=
  match a, b with
  | XNaN, _ | _, XNaN => XNaN
  | XInf s, XInf s' => XInf (xorb s s')
  | XInf s, XFin x | XFin x, XInf s =>
    if Reqb x 0 then XNaN else XInf (xorb s (Rltb x 0))
  | XFin x, XFin y => XFin (x * y)
  end.

Definition xdiv (a b : xreal) : xreal :=
  match a, b with
  | XNaN, _ | _, XNaN => XNaN
  | XInf _, XInf _ => XNaN
  | XInf s, XFin y => XInf (xorb s (Rltb y 0))
  | XFin _, XInf _ => XFin 0
  | XFin x, XFin y =>
    if Reqb y 0
    then if Reqb x 0 then XNaN else XInf (Rltb x 0)
    else XFin (x / y)
  end.

Definition xsqrt (a : xreal) : xreal :=
  match a with
  | XNaN => XNaN
  | XInf s => if s then XNaN else XInf false
  | XFin x => if Rltb x 0 then XNaN else XFin (R_sqrt.sqrt x)
  end.

Definition xlt (a b : xreal) : bool :=
  match a, b with
  | XNaN, _ | _, XNaN => false
  | XInf s, XInf s' => s && negb s'
  | XInf s, XFin _ => s
  | XFin _, XInf s => negb s
  | XFin x, XFin y => Rltb x y
  end.

Definition xeq (a b : xreal) : bool :=
  match a, b with
  | XNaN, _ | _, XNaN => false
  | XInf s, XInf s' => Bool.eqb s s'
  | XFin x, XFin y => Reqb x y
  | _, _ => false
  end.

Definition xle (a b : xreal) : bool := xlt a b || xeq a b.

(** As for [F64.pow]: squaring is a product, the rest is left open. *)
Definition pow {libm : Libm xreal} (x y : xreal) : xreal :=
  if xeq y (XFin 2) then xmul x x else libm_pow x y.

#[global] Instance ops {libm : Libm xreal} : JSNumber xreal := {|
  n_lit := fun z => XFin (IZR z);
  n_infinity := XInf false;
  n_nan := XNaN;
  n_add := xadd;
  n_sub := xsub;
  n_mul := xmul;
  n_div := xdiv;
  n_neg := xneg;
  n_sqrt := xsqrt;
  n_pow := pow;
  n_lt := xlt;
  n_le := xle;
  n_eq := xeq
|}.

Definition no_pow : Libm xreal := fun _ _ => XNaN.

(** A vector of real numbers. *)
Definition fin (rs : list R) : list xreal := map XFin rs.

(** The operations of the program on lists of reals of one length. *)
Definition rzip (f : R -> R -> R) (a b : list R) : list R :=
  map (fun p => f (fst p) (snd p)) (combine a b).

Definition rdot (a b : list R) : R := fold_left Rplus (rzip Rmult a b) 0.

(** The sphere of the end-to-end scenario, over the reals. *)
Definition redSphereExact : Sphere xreal := {|
  center := fin [0; 0; 5];
  radius := XFin 1;
  color := fin [255; 0; 0];
  specular := XFin (-1);
  reflective := XFin 0
|}.

End Exact.

(* ================================================================= *)
(** ** Vocabulary of the statements *)

Section Vocabulary.
Context {num : Type} {ops : JSNumber num}.
Local Open Scope js_scope.

(** [t] lies strictly inside [(tMin, tMax)]. *)
Definition inside (tMin tMax t : num) : bool := (t >? tMin) && (t <? tMax).

(** [t] is one of the two numbers [intersectRaySphere] returns. *)
Definition isRoot (O D : vec num) (sphere : Sphere num) (t : num) : Prop :=
  t = fst (intersectRaySphere O D sphere)
  \/ t = snd (intersectRaySphere O D sphere).

(** The test the loop of [closestIntersection] applies to one root. *)
Definition consider (tMin tMax : num) (st : option (Sphere num) * num)
           (sphere : Sphere num) (t : num) : option (Sphere num) * num :=
  if inside tMin tMax t && (t <? snd st) then (Some sphere, t) else st.

(** Both roots of every sphere, in the order the loop tests them. *)
Definition candidates (O D : vec num) (l : list (Sphere num))
  : list (Sphere num * num) :=
  flat_map (fun sphere =>
              [(sphere, fst (intersectRaySphere O D sphere));
               (sphere, snd (intersectRaySphere O D sphere))]) l.

(** What the loop knows after the roots [seen], in scan order. *)
Definition best (tMin tMax : num) (seen : list (Sphere num * num))
           (st : option (Sphere num) * num) : Prop :=
  match fst st with
  | None =>
    snd st = n_infinity
    /\ forall c, In c seen -> inside tMin tMax (snd c) = false
  | Some sphere =>
    In (sphere, snd st) seen
    /\ inside tMin tMax (snd st) = true
    /\ forall c, In c seen -> inside tMin tMax (snd c) = true ->
                 (snd c <? snd st) = false
  end.

(** The shadow ray of a light at [P]: its direction [L] and the bound
    [tMax]; an ambient light has none. *)
Definition shadowRay (P : vec num) (light : Light num) : option (vec num * num) :=
  match light with
  | Ambient _ => None
  | Point _ position => Some (sub position P, n_lit 1)
  | Directional _ direction => Some (direction, n_infinity)
  end.

(** Some sphere of the scene has a root strictly inside [(0.001, tMax)] on
    the shadow ray of [light]. *)
Definition occluded (scene : Scene num) (P : vec num) (light : Light num)
  : Prop :=
  exists L tMax sphere t,
    shadowRay P light = Some (L, tMax)
    /\ In sphere (spheres scene)
    /\ isRoot P L sphere t
    /\ inside (dec 1 3) tMax t = true.

(** The same number: equal, or equal for [===] (the two zeros). *)
Definition same (a b : num) : Prop := a = b \/ (a === b) = true.

(** Subtracting 1 from [depth] reaches a value [<= 0] after [n] steps and
    not before. *)
Fixpoint countsDown (n : nat) (depth : num) : Prop :=
  match n with
  | O => (depth <=? n_lit 0) = true
  | S n' => (depth <=? n_lit 0) = false /\ countsDown n' (depth - n_lit 1)
  end.

End Vocabulary.

(* ================================================================= *)
(** ** Scenes of the examples *)

Section Scenes.
Context {libm : Libm float}.

(** The scenario of the end-to-end tests: one red sphere of radius 1 at
    [(0,0,5)] without highlight or mirror, lit by one ambient light of
    intensity 1, seen from the origin along the z axis. *)
Definition redSphere : Sphere float := {|
  center := [n_lit 0; n_lit 0; n_lit 5];
  radius := n_lit 1;
  color := [n_lit 255; n_lit 0; n_lit 0];
  specular := n_neg (n_lit 1);
  reflective := n_lit 0
|}.

Definition redScene : Scene float := {|
  lights := [Ambient (n_lit 1)];
  spheres := [redSphere]
|}.

Definition eye : vec float := [n_lit 0; n_lit 0; n_lit 0].
Definition ahead : vec float := [n_lit 0; n_lit 0; n_lit 1].



(** A mirror sphere around the origin, seen from inside. *)
Definition hallSphere : Sphere float := {|
  center := [n_lit 0; n_lit 0; n_lit 0];
  radius := n_lit 1;
  color := [n_lit 255; n_lit 0; n_lit 0];
  specular := n_neg (n_lit 1);
  reflective := n_lit 1
|}.

Definition hallScene : Scene float := {|
  lights := [Ambient (n_lit 1)];
  spheres := [hallSphere]
|}.

Definition north : vec float := [n_lit 0; n_lit 0; n_lit 1].

(** A unit normal and a vector with decimal components. *)
Definition tilted : vec float := [dec 6 1; dec 8 1; n_lit 0].
Definition tenths : vec float := [dec 1 1; dec 2 1; dec 3 1].

(** A diagonal ray from the centre of [hallSphere]. *)
Definition diagonal : vec float := [n_lit 1; n_lit 1; n_lit 0].

(** A point light behind [redSphere], seen from [eye]. *)
Definition lamp : Light float := Point (n_lit 1) [n_lit 0; n_lit 0; n_lit 10].

End Scenes.

(* ================================================================= *)
(** ** The frame *)

Section Frame.
Context {num : Type} {ops : JSNumber num}.
Local Open Scope js_scope.

(** [viewport]: its fields are [width], [height] and [depth]. *)
Record Viewport := {
  vp_width : num;
  vp_height : num;
  vp_depth : num
}.

Definition viewport : Viewport := {|
  vp_width := n_lit 1;
  vp_height := n_lit 1;
  vp_depth := n_lit 1
|}.

(** [camera]: its fields are [position] and [rotation], a matrix as an
    array of rows. *)
Record Camera := {
  cam_position : vec num;
  cam_rotation : list (vec num)
}.

Definition camera : Camera := {|
  cam_position := [n_lit 3; n_lit 0; n_lit 1];
  cam_rotation := [
    [dec 7071 4; n_lit 0; - dec 7071 4];
    [n_lit 0; n_lit 1; n_lit 0];
    [dec 7071 4; n_lit 0; dec 7071 4]
  ]
|}.

(** [res[i] = x] for an index inside [res]. *)
Fixpoint assign (res : vec num) (i : nat) (x : num) : vec num :=
  match res, i with
  | [], _ => []
  | _ :: rest, O => x :: rest
  | y :: rest, S i' => y :: assign rest i' x
  end.

(** [res[i] += V[j] * M[i][j]]; reading [M[i][j]] throws a [TypeError]
    when [M[i]] is [undefined], which is [None] here. *)
Definition mulStep (M : list (vec num)) (V : vec num) (i : nat)
           (res : option (vec num)) (j : nat) : option (vec num) :=
  match res, nth_error M i with
  | Some res, Some row => Some (assign res i (at_ res i + at_ V j * at_ row j))
  | _, _ => None
  end.

(** [mul(M, V)]: the two loops run over the indices 0, 1, 2. *)
Definition mul (M : list (vec num)) (V : vec num) : option (vec num) :=
  fold_left (fun res i => fold_left (mulStep M V i) (seq 0 3) res)
            (seq 0 3) (Some [n_lit 0; n_lit 0; n_lit 0]).

(** The identity matrix. *)
Definition identity3 : list (vec num) :=
  [[n_lit 1; n_lit 0; n_lit 0];
   [n_lit 0; n_lit 1; n_lit 0];
   [n_lit 0; n_lit 0; n_lit 1]].

(** [canvasToViewport(x, y)], where [cw] and [ch] are [canvas.width] and
    [canvas.height]. *)
Definition canvasToViewport (cw ch x y : num) : vec num :=
  [x * (vp_width viewport / cw); y * (vp_height viewport / ch);
   vp_depth viewport].

(** The body of the loop of [render] up to the call of [putPixel]: the
    colour of the pixel [(x, y)].  The outer [None] is the [TypeError] of
    [mul], the inner one the bound of [traceRay]. *)
Definition renderPixel (fuel : nat) (scene : Scene num) (camera : Camera)
           (cw ch x y : num) : option (option (vec num)) :=
  match mul (cam_rotation camera) (canvasToViewport cw ch x y) with
  | None => None
  | Some direction =>
    Some (traceRay fuel scene (cam_position camera) direction
                   (n_lit 1) n_infinity defaultDepth)
  end.

End Frame.

Arguments Viewport num : clear implicits.
Arguments Camera num : clear implicits.

(* ================================================================= *)
(** ** Vocabulary of the further properties *)

Section MoreVocabulary.
Context {num : Type} {ops : JSNumber num}.


(** A vector with at least one component and only [NaN] components. *)
Definition allNaN (V : vec num) : Prop :=
  V <> [] /\ Forall (fun x => x = n_nan) V.

End MoreVocabulary.

(** Second spheres for the examples: the geometry of [redSphere] in blue,
    and a point light in front of [redSphere]. *)
Definition blueSphere {libm : Libm float} : Sphere float := {|
  center := [n_lit 0; n_lit 0; n_lit 5];
  radius := n_lit 1;
  color := [n_lit 0; n_lit 0; n_lit 255];
  specular := n_neg (n_lit 1);
  reflective := n_lit 0
|}.

Definition twinScene {libm : Libm float} : Scene float := {|
  lights := [Ambient (n_lit 1)];
  spheres := [redSphere; blueSphere]
|}.

Definition nearLamp {libm : Libm float} : Light float :=
  Point (n_lit 1) [n_lit 0; n_lit 0; n_lit 3].

(** A point light at [eye] itself. *)
Definition ownLamp {libm : Libm float} : Light float :=
  Point (n_lit 1) [n_lit 0; n_lit 0; n_lit 0].

(** A zero of either sign. *)
Definition isZero (x : float) : Prop := exists s, Prim2SF x = S754_zero s.

(** A zero of either sign, or [NaN]. *)
Definition zeroOrNaN (x : float) : Prop :=
  match Prim2SF x with
  | S754_zero _ | S754_nan => True
  | _ => False
  end.

(* ================================================================= *)
(** * Theory *)

(* ================================================================= *)
(** ** The order of binary64 and of the exact numbers *)

Module F64Order.

Lemma SFcompare_refl (x : spec_float) :
  SFcompare x x = None \/ SFcompare x x = Some Eq.
Proof.
  destruct x as [s|s| |s m e]; cbn; auto; destruct s; auto;
    rewrite Z.compare_refl;
    change (Pos.compare_cont Eq m m) with (Pos.compare m m);
    rewrite Pos.compare_refl; auto.
Qed.

Lemma SFltb_irrefl (x : spec_float) : SFltb x x = false.
Proof.
  unfold SFltb. now destruct (SFcompare_refl x) as [-> | ->].
Qed.

(** Finite numbers of one sign compare as the pairs (exponent, mantissa). *)
Definition lexlt (e1 : Z) (m1 : positive) (e2 : Z) (m2 : positive) : Prop :=
  (e1 < e2)%Z \/ (e1 = e2 /\ (m1 < m2)%positive).

Lemma lex_compare_Lt e1 m1 e2 m2 :
  match Z.compare e1 e2 with
  | Lt => Lt | Gt => Gt | Eq => Pos.compare_cont Eq m1 m2
  end = Lt <-> lexlt e1 m1 e2 m2.
Proof.
  unfold lexlt. change (Pos.compare_cont Eq m1 m2) with (Pos.compare m1 m2).
  destruct (Z.compare_spec e1 e2); destruct (Pos.compare_spec m1 m2);
    split; intros H'; try discriminate; try reflexivity; try lia.
Qed.

Lemma lex_compare_Gt e1 m1 e2 m2 :
  match Z.compare e1 e2 with
  | Lt => Gt | Gt => Lt | Eq => CompOpp (Pos.compare_cont Eq m1 m2)
  end = Lt <-> lexlt e2 m2 e1 m1.
Proof.
  unfold lexlt. change (Pos.compare_cont Eq m1 m2) with (Pos.compare m1 m2).
  destruct (Z.compare_spec e1 e2); destruct (Pos.compare_spec m1 m2);
    split; cbn; intros H'; try discriminate; try reflexivity; try lia.
Qed.

Lemma lexlt_trans e1 m1 e2 m2 e3 m3 :
  lexlt e1 m1 e2 m2 -> lexlt e2 m2 e3 m3 -> lexlt e1 m1 e3 m3.
Proof. unfold lexlt. lia. Qed.

Lemma SFltb_finite s1 m1 e1 s2 m2 e2 :
  SFltb (S754_finite s1 m1 e1) (S754_finite s2 m2 e2) = true <->
  match s1, s2 with
  | true, false => True
  | false, true => False
  | false, false => lexlt e1 m1 e2 m2
  | true, true => lexlt e2 m2 e1 m1
  end.
Proof.
  unfold SFltb, SFcompare. destruct s1, s2.
  - rewrite <- lex_compare_Gt.
    destruct (Z.compare e1 e2); [destruct (Pos.compare_cont Eq m1 m2)| |];
      cbn; split; intros H; try discriminate; reflexivity.
  - tauto.
  - split; [discriminate|tauto].
  - rewrite <- lex_compare_Lt.
    destruct (Z.compare e1 e2); [destruct (Pos.compare_cont Eq m1 m2)| |];
      cbn; split; intros H; try discriminate; reflexivity.
Qed.

Lemma SFltb_trans (a b c : spec_float) :
  SFltb a b = true -> SFltb b c = true -> SFltb a c = true.
Proof.
  destruct a as [sa|sa| |sa ma ea], b as [sb|sb| |sb mb eb],
           c as [sc|sc| |sc mc ec];
    try (unfold SFltb; cbn; repeat match goal with s : bool |- _ => destruct s end;
         cbn; congruence).
  rewrite !SFltb_finite.
  destruct sa, sb, sc; try tauto; intros H1 H2;
    eapply lexlt_trans; eassumption.
Qed.

Lemma SFltb_top (a b : spec_float) :
  SFltb a b = true -> SFltb a (S754_infinity false) = true.
Proof.
  destruct a as [sa|sa| |sa ma ea], b as [sb|sb| |sb mb eb];
    unfold SFltb; cbn; repeat match goal with s : bool |- _ => destruct s end;
    cbn; congruence.
Qed.

Lemma Prim2SF_infinity : Prim2SF infinity = S754_infinity false.
Proof. reflexivity. Qed.

#[global] Instance binary64_order {libm : Libm float} : JSNumberOrder float.
Proof.
  constructor; cbn.
  - intros a. rewrite FloatAxioms.ltb_spec. apply SFltb_irrefl.
  - intros a b c. rewrite !FloatAxioms.ltb_spec. apply SFltb_trans.
  - intros a b. rewrite !FloatAxioms.ltb_spec, Prim2SF_infinity. apply SFltb_top.
Qed.

End F64Order.

Module ExactOrder.
Import Exact.

Lemma Rltb_true (a b : R) : Rltb a b = true <-> (a < b)%R.
Proof. unfold Rltb. destruct (Rlt_dec a b); split; auto; discriminate. Qed.

#[global] Instance exact_order {libm : Libm xreal} : JSNumberOrder xreal.
Proof.
  constructor; cbn.
  - intros [|s|x]; cbn; [reflexivity|now destruct s|].
    destruct (Rltb x x) eqn:E; [|reflexivity].
    apply Rltb_true in E. lra.
  - intros [|sa|x] [|sb|y] [|sc|z]; cbn;
      try discriminate; try (destruct sa, sb, sc; cbn; congruence);
      try (destruct sa, sb; cbn; congruence);
      try (destruct sb, sc; cbn; congruence);
      try (destruct sa, sc; cbn; congruence);
      try (destruct sa; cbn; congruence);
      try (destruct sb; cbn; congruence);
      try (destruct sc; cbn; congruence).
    rewrite !Rltb_true. lra.
  - intros [|sa|x] [|sb|y]; cbn; try discriminate; try reflexivity;
      try (destruct sa; cbn; congruence); try (destruct sa, sb; cbn; congruence).
Qed.

End ExactOrder.

(* ================================================================= *)
(** ** The nearest-hit search *)

Section Nearest.
Context {num : Type} {ops : JSNumber num} {ord : JSNumberOrder num}.
Local Open Scope js_scope.

Variables (O D : vec num) (tMin tMax : num).

Lemma closestStep_consider st sphere :
  closestStep O D tMin tMax st sphere =
  consider tMin tMax
           (consider tMin tMax st sphere (fst (intersectRaySphere O D sphere)))
           sphere (snd (intersectRaySphere O D sphere)).
Proof.
  unfold closestStep, consider, inside.
  destruct (intersectRaySphere O D sphere) as [t1 t2]; reflexivity.
Qed.

Lemma n_lt_infinity (a : num) : (n_infinity <? a) = false.
Proof.
  destruct (n_infinity <? a) eqn:E; [|reflexivity].
  apply n_lt_top in E. now rewrite n_lt_irrefl in E.
Qed.

Lemma best_consider seen st sphere t :
  best tMin tMax seen st ->
  best tMin tMax (seen ++ [(sphere, t)]) (consider tMin tMax st sphere t).
Proof.
  unfold consider. intros Hb.
  destruct (inside tMin tMax t && (t <? snd st)) eqn:E.
  - apply andb_true_iff in E as [Hin Hlt]. cbn.
    split; [apply in_or_app; right; left; reflexivity|].
    split; [exact Hin|].
    intros c Hc Hci. apply in_app_or in Hc as [Hc|[<-|[]]].
    + unfold best in Hb. destruct (fst st).
      * destruct Hb as (_ & _ & Hmin).
        destruct (snd c <? t) eqn:E'; [|reflexivity].
        rewrite <- (Hmin c Hc Hci). symmetry.
        now apply n_lt_trans with t.
      * destruct Hb as (_ & Hno). now rewrite (Hno c Hc) in Hci.
    + apply n_lt_irrefl.
  - unfold best in *. destruct (fst st).
    + destruct Hb as (Hs & Hi & Hmin).
      split; [apply in_or_app; now left|]. split; [exact Hi|].
      intros c Hc Hci. apply in_app_or in Hc as [Hc|[<-|[]]]; [now apply Hmin|].
      cbn in *. now rewrite Hci in E.
    + destruct Hb as (Hinf & Hno). split; [exact Hinf|].
      intros c Hc. apply in_app_or in Hc as [Hc|[<-|[]]]; [now apply Hno|].
      cbn. destruct (inside tMin tMax t) eqn:Hi; [|reflexivity].
      cbn in E. rewrite Hinf in E.
      unfold inside in Hi. apply andb_true_iff in Hi as [_ Hi].
      apply n_lt_top in Hi. now rewrite Hi in E.
Qed.

Lemma in_candidates l sphere t :
  In (sphere, t) (candidates O D l) <-> In sphere l /\ isRoot O D sphere t.
Proof.
  unfold candidates, isRoot. rewrite in_flat_map. split.
  - intros (x & Hx & [H|[H|[]]]); inversion H; subst; auto.
  - intros (Hs & [->| ->]); exists sphere; cbn; auto.
Qed.

Lemma best_fold l : forall seen st,
    best tMin tMax seen st ->
    best tMin tMax (seen ++ candidates O D l)
         (fold_left (closestStep O D tMin tMax) l st).
Proof.
  induction l as [|sphere l IH]; intros seen st Hb; cbn.
  - now rewrite app_nil_r.
  - rewrite closestStep_consider.
    specialize (IH (seen ++ [(sphere, fst (intersectRaySphere O D sphere));
                             (sphere, snd (intersectRaySphere O D sphere))])).
    rewrite <- app_assoc in IH. apply IH.
    change (seen ++ [(sphere, fst (intersectRaySphere O D sphere));
                     (sphere, snd (intersectRaySphere O D sphere))])
      with (seen ++ [(sphere, fst (intersectRaySphere O D sphere))]
                 ++ [(sphere, snd (intersectRaySphere O D sphere))]).
    rewrite app_assoc. now do 2 apply best_consider.
Qed.

Lemma best_closestIntersection scene :
  best tMin tMax (candidates O D (spheres scene))
       (closestIntersection scene O D tMin tMax).
Proof.
  unfold closestIntersection.
  apply (best_fold (spheres scene) [] (None, n_infinity)).
  cbn. split; [reflexivity|]. intros c [].
Qed.

(** No root inside the interval: the initial state comes back. *)
Lemma closestIntersection_none scene :
  (forall sphere t, In sphere (spheres scene) -> isRoot O D sphere t ->
                    inside tMin tMax t = false) ->
  closestIntersection scene O D tMin tMax = (None, n_infinity).
Proof.
  intros Hno. pose proof (best_closestIntersection scene) as Hb.
  unfold best in Hb.
  destruct (closestIntersection scene O D tMin tMax) as [[sphere|] t]; cbn in *.
  - destruct Hb as (Hin & Hi & _). apply in_candidates in Hin as [Hs Hr].
    now rewrite (Hno sphere t Hs Hr) in Hi.
  - destruct Hb as [-> _]. reflexivity.
Qed.

(** A sphere comes back: it is in the scene, the distance is one of its
    roots, inside the interval, and no root inside the interval is
    smaller. *)
Lemma closestIntersection_some scene sphere t :
  closestIntersection scene O D tMin tMax = (Some sphere, t) ->
  In sphere (spheres scene) /\ isRoot O D sphere t
  /\ inside tMin tMax t = true
  /\ forall sphere' t', In sphere' (spheres scene) -> isRoot O D sphere' t' ->
                        inside tMin tMax t' = true -> (t' <? t) = false.
Proof.
  intros E. pose proof (best_closestIntersection scene) as Hb.
  rewrite E in Hb. cbn in Hb. destruct Hb as (Hin & Hi & Hmin).
  apply in_candidates in Hin as [Hs Hr]. repeat split; auto.
  intros sphere' t' Hs' Hr' Hi'.
  apply (Hmin (sphere', t')); [now apply in_candidates|exact Hi'].
Qed.

(** Some root inside the interval: a sphere comes back. *)
Lemma closestIntersection_hit scene sphere0 t0 :
  In sphere0 (spheres scene) -> isRoot O D sphere0 t0 ->
  inside tMin tMax t0 = true ->
  exists sphere t, closestIntersection scene O D tMin tMax = (Some sphere, t).
Proof.
  intros Hs Hr Hi. pose proof (best_closestIntersection scene) as Hb.
  unfold best in Hb.
  destruct (closestIntersection scene O D tMin tMax) as [[sphere|] t]; cbn in *.
  - now exists sphere, t.
  - destruct Hb as [_ Hno].
    specialize (Hno (sphere0, t0)). cbn in Hno.
    rewrite Hno in Hi; [discriminate|now apply in_candidates].
Qed.

(** The sentinel distance goes with the null sphere and only with it. *)
Lemma closestIntersection_null_infinity scene :
  fst (closestIntersection scene O D tMin tMax) = None
  <-> snd (closestIntersection scene O D tMin tMax) = n_infinity.
Proof.
  pose proof (best_closestIntersection scene) as Hb. unfold best in Hb.
  destruct (closestIntersection scene O D tMin tMax) as [[sphere|] t]; cbn in *.
  - destruct Hb as (_ & Hi & _). split; [discriminate|]. intros ->.
    unfold inside in Hi. apply andb_true_iff in Hi as [_ Hi].
    now rewrite n_lt_infinity in Hi.
  - destruct Hb as [-> _]. split; reflexivity.
Qed.

End Nearest.

(* ================================================================= *)
(** ** Vectors of equal length *)

Section Vectors.
Context {num : Type} {ops : JSNumber num}.
Local Open Scope js_scope.

Lemma mapi_from_S {A B : Type} (f : A -> nat -> B) (l : list A) : forall k,
    mapi_from (S k) f l = mapi_from k (fun val i => f val (S i)) l.
Proof.
  induction l as [|a l IH]; intros k; cbn; [reflexivity|].
  now rewrite IH.
Qed.

(** When [V2] is as long as [V1], no read of [V2[i]] is [undefined] and
    the indexed map is a map over the pairs. *)
Lemma mapi_at_combine (f : num -> num -> num) (V1 : vec num) : forall V2,
    length V1 = length V2 ->
    mapi (fun val i => f val (at_ V2 i)) V1
    = map (fun p => f (fst p) (snd p)) (combine V1 V2).
Proof.
  unfold mapi.
  induction V1 as [|a V1 IH]; intros [|b V2] Hlen; cbn in *;
    try reflexivity; try discriminate.
  f_equal. rewrite mapi_from_S. apply IH. congruence.
Qed.


End Vectors.

(* ================================================================= *)
(** ** Binary64: multiplying by one and by zero, adding zero *)

Module F64Arith.

Lemma Prim2SF_one : Prim2SF 1 = S754_finite false 4503599627370496 (-52).
Proof. reflexivity. Qed.

Lemma Prim2SF_zero : Prim2SF 0 = S754_zero false.
Proof. reflexivity. Qed.

Lemma pos_mul_2p52 (m : positive) :
  (m * 4503599627370496)%positive = Pos.iter xO m 52.
Proof. rewrite Pos.mul_comm. reflexivity. Qed.

Lemma digits2_shift (m : positive) :
  Zpos (digits2_pos (Pos.iter xO m 52)) = (Zpos (digits2_pos m) + 52)%Z.
Proof. cbn [Pos.iter digits2_pos]. lia. Qed.

Lemma shr_52 (m : positive) :
  SpecFloat.iter_pos shr_1 52
           {| shr_m := Zpos (Pos.iter xO m 52); shr_r := false; shr_s := false |}
  = {| shr_m := Zpos m; shr_r := false; shr_s := false |}.
Proof. reflexivity. Qed.

(** The product of a canonical mantissa with [2^52], at an exponent 52
    lower, rounds back to the number itself. *)
Lemma SFmul_one (s : bool) (m : positive) (e : Z) :
  valid_binary (S754_finite s m e) = true ->
  SFmul prec emax (S754_finite s m e)
        (S754_finite false 4503599627370496 (-52))
  = S754_finite s m e.
Proof.
  unfold valid_binary, SpecFloat.valid_binary, bounded, canonical_mantissa.
  intros H. apply andb_true_iff in H as [Hc Hb].
  apply Z.eqb_eq in Hc.
  unfold SFmul. rewrite xorb_false_r, pos_mul_2p52.
  unfold binary_round_aux.
  assert (E1 : shr_fexp prec emax (Zpos (Pos.iter xO m 52)) (e + -52) loc_Exact
               = ({| shr_m := Zpos m; shr_r := false; shr_s := false |}, e)).
  { unfold shr_fexp, Zdigits2. rewrite digits2_shift.
    replace (Z.pos (digits2_pos m) + 52 + (e + -52))%Z
      with (Z.pos (digits2_pos m) + e)%Z by lia.
    rewrite Hc. replace (e - (e + -52))%Z with 52%Z by lia.
    unfold shr. cbn [shr_record_of_loc]. rewrite shr_52. f_equal. lia. }
  rewrite E1. cbn [shr_m loc_of_shr_record round_nearest_even].
  assert (E2 : shr_fexp prec emax (Zpos m) e loc_Exact
               = ({| shr_m := Zpos m; shr_r := false; shr_s := false |}, e)).
  { unfold shr_fexp, Zdigits2. rewrite Hc, Z.sub_diag. reflexivity. }
  rewrite E2. cbn [shr_m]. rewrite Hb. reflexivity.
Qed.

Lemma mul_one_r (x : float) : PrimFloat.mul x 1 = x.
Proof.
  apply Prim2SF_inj. rewrite mul_spec, Prim2SF_one.
  pose proof (Prim2SF_valid x) as Hv.
  destruct (Prim2SF x) as [s|s| |s m e]; try reflexivity.
  - cbn. now rewrite xorb_false_r.
  - cbn. now rewrite xorb_false_r.
  - now apply SFmul_one.
Qed.

(** A finite double is a zero or has a mantissa. *)
Lemma is_finite_spec (x : float) :
  is_finite x = true ->
  (exists s, Prim2SF x = S754_zero s)
  \/ (exists s m e, Prim2SF x = S754_finite s m e).
Proof.
  unfold is_finite, is_nan, is_infinity.
  rewrite !FloatAxioms.eqb_spec, abs_spec.
  destruct (Prim2SF x) as [s|s| |s m e]; cbn; try discriminate; eauto.
  destruct s; discriminate.
Qed.

Lemma mul_zero_finite (x : float) :
  is_finite x = true -> exists s, Prim2SF (PrimFloat.mul x 0) = S754_zero s.
Proof.
  intros H. rewrite mul_spec, Prim2SF_zero.
  destruct (is_finite_spec x H) as [(s & ->)|(s & m & e & ->)]; cbn; eauto.
Qed.



Lemma add_zero_l (z y : float) (s : bool) :
  Prim2SF z = S754_zero s ->
  PrimFloat.add z y = y \/ PrimFloat.eqb (PrimFloat.add z y) y = true.
Proof.
  intros Hz.
  destruct (Prim2SF y) as [s'|s'| |s' m e] eqn:Hy.
  - right. rewrite FloatAxioms.eqb_spec, add_spec, Hz, Hy.
    destruct s, s'; reflexivity.
  - left. apply Prim2SF_inj. rewrite add_spec, Hz, Hy. reflexivity.
  - left. apply Prim2SF_inj. rewrite add_spec, Hz, Hy. reflexivity.
  - left. apply Prim2SF_inj. rewrite add_spec, Hz, Hy. reflexivity.
Qed.



End F64Arith.

(* ================================================================= *)
(** ** Exact arithmetic on vectors of reals *)

Module ExactVectors.
Import Exact.

Section WithLibm.
Context {libm : Libm xreal}.
Local Open Scope R_scope.

Lemma length_rzip f a : forall b,
    length a = length b -> length (rzip f a b) = length b.
Proof.
  unfold rzip. intros b H. now rewrite length_map, length_combine, H, Nat.min_id.
Qed.

Lemma combine_fin a : forall b,
    combine (fin a) (fin b)
    = map (fun p => (XFin (fst p), XFin (snd p))) (combine a b).
Proof.
  induction a as [|x a IH]; intros [|y b]; cbn; try reflexivity.
  now rewrite <- IH.
Qed.

Lemma zip_fin (f : xreal -> xreal -> xreal) (g : R -> R -> R) a b :
  (forall x y, f (XFin x) (XFin y) = XFin (g x y)) ->
  length a = length b ->
  mapi (fun val i => f val (at_ (fin b) i)) (fin a) = fin (rzip g a b).
Proof.
  intros Hfg Hlen. rewrite mapi_at_combine by (unfold fin; now rewrite !length_map).
  rewrite combine_fin. unfold fin, rzip. rewrite !map_map.
  apply map_ext. intros [x y]. apply Hfg.
Qed.

Lemma sub_fin a b :
  length a = length b -> sub (fin a) (fin b) = fin (rzip Rminus a b).
Proof. intros H. unfold sub. now apply zip_fin. Qed.

Lemma add_fin a b :
  length a = length b -> add (fin a) (fin b) = fin (rzip Rplus a b).
Proof. intros H. unfold add. now apply zip_fin. Qed.

Lemma scale_fin c a :
  scale (XFin c) (fin a) = fin (map (fun x => x * c) a).
Proof. unfold scale, fin. now rewrite !map_map. Qed.

Lemma sum_fin_from l : forall acc,
    fold_left (fun acc val => n_add acc val) (fin l) (XFin acc)
    = XFin (fold_left Rplus l acc).
Proof.
  induction l as [|x l IH]; intros acc; cbn; [reflexivity|]. apply IH.
Qed.

Lemma dot_fin a b :
  length a = length b -> dot (fin a) (fin b) = XFin (rdot a b).
Proof.
  intros H. unfold dot, sum.
  rewrite (zip_fin n_mul Rmult) by auto. apply sum_fin_from.
Qed.

Lemma fold_Rplus l : forall acc, fold_left Rplus l acc = acc + fold_left Rplus l 0.
Proof.
  induction l as [|x l IH]; intros acc; cbn; [lra|].
  rewrite (IH (acc + x)), (IH (0 + x)). lra.
Qed.

Lemma rdot_cons x a y b : rdot (x :: a) (y :: b) = x * y + rdot a b.
Proof.
  unfold rdot.
  change (rzip Rmult (x :: a) (y :: b)) with (x * y :: rzip Rmult a b).
  cbn [fold_left]. rewrite (fold_Rplus (rzip Rmult a b) (0 + x * y)). lra.
Qed.

Lemma rdot_nil : rdot [] [] = 0.
Proof. reflexivity. Qed.

(** The dot product with a reflected vector. *)
Lemma rdot_reflect c n : forall r,
    length r = length n ->
    rdot n (rzip Rminus (map (fun x => x * c) n) r)
    = c * rdot n n - rdot n r.
Proof.
  induction n as [|x n IH]; intros [|y r] Hlen; cbn [length] in Hlen;
    try discriminate.
  - change (rzip Rminus (map (fun x => x * c) []) []) with (@nil R).
    rewrite rdot_nil. lra.
  - change (rzip Rminus (map (fun x0 => x0 * c) (x :: n)) (y :: r))
      with ((x * c - y) :: rzip Rminus (map (fun x0 => x0 * c) n) r).
    rewrite !rdot_cons, IH by congruence. lra.
Qed.

Lemma rzip_reflect_twice c n : forall r,
    length r = length n ->
    rzip Rminus (map (fun x => x * c) n)
         (rzip Rminus (map (fun x => x * c) n) r) = r.
Proof.
  induction n as [|x n IH]; intros [|y r] Hlen; cbn in *; try discriminate.
  - reflexivity.
  - unfold rzip in *. cbn. rewrite IH by congruence. f_equal. lra.
Qed.

Lemma reflectRay_fin r n :
  length r = length n ->
  reflectRay (fin r) (fin n)
  = fin (rzip Rminus (map (fun x => x * (2 * rdot n r)) n) r).
Proof.
  intros Hlen. unfold reflectRay.
  rewrite dot_fin by auto.
  change (n_mul (n_lit 2) (XFin (rdot n r))) with (XFin (2 * rdot n r)).
  rewrite scale_fin, sub_fin by now rewrite length_map.
  reflexivity.
Qed.

Lemma Reqb_refl x : Reqb x x = true.
Proof. unfold Reqb. now destruct (Req_dec_T x x). Qed.

Lemma Reqb_neq x y : x <> y -> Reqb x y = false.
Proof. unfold Reqb. now destruct (Req_dec_T x y). Qed.

Lemma Rltb_ge x y : y <= x -> Rltb x y = false.
Proof. unfold Rltb. destruct (Rlt_dec x y); [lra|reflexivity]. Qed.

Lemma pow_two x : n_pow (XFin x) (n_lit 2) = XFin (x * x).
Proof. cbn. unfold pow. cbn. now rewrite Reqb_refl. Qed.

End WithLibm.
End ExactVectors.

(* ================================================================= *)
(** ** The program on binary64 *)

Section Binary64.
Context {libm : Libm float}.
Local Open Scope js_scope.

Lemma traceRay_unfold fuel scene O D tMin tMax depth :
  traceRay (S fuel) scene O D tMin tMax depth =
  traceRayBody (traceRay fuel scene) scene O D tMin tMax depth.
Proof. reflexivity. Qed.

Lemma traceRayBody_miss self scene O D tMin tMax depth :
  fst (closestIntersection scene O D tMin tMax) = None ->
  traceRayBody self scene O D tMin tMax depth = Some backgroundColor.
Proof.
  unfold traceRayBody.
  destruct (closestIntersection scene O D tMin tMax) as [[sphere|] t];
    [discriminate|reflexivity].
Qed.

Lemma traceRayBody_stop self scene O D tMin tMax depth sphere t :
  closestIntersection scene O D tMin tMax = (Some sphere, t) ->
  (depth <=? n_lit 0) || (reflective sphere <=? n_lit 0) = true ->
  traceRayBody self scene O D tMin tMax depth =
  Some (localColor scene O D sphere t).
Proof.
  unfold traceRayBody. intros -> Hstop. now rewrite Hstop.
Qed.

Lemma traceRayBody_blend self scene O D tMin tMax depth sphere t :
  closestIntersection scene O D tMin tMax = (Some sphere, t) ->
  (depth <=? n_lit 0) || (reflective sphere <=? n_lit 0) = false ->
  traceRayBody self scene O D tMin tMax depth =
  match self (hitPoint O D t)
             (reflectRay (scale (n_neg (n_lit 1)) D)
                         (hitNormal (hitPoint O D t) sphere))
             (dec 1 3) n_infinity (depth - n_lit 1) with
  | None => None
  | Some reflectedColor =>
    Some (blend (reflective sphere) (localColor scene O D sphere t)
                reflectedColor)
  end.
Proof.
  unfold traceRayBody. intros -> Hgo. now rewrite Hgo.
Qed.

Lemma shade_shadowed scene P N V s i intensity L tMax sphere :
  fst (closestIntersection scene P L (dec 1 3) tMax) = Some sphere ->
  shade scene P N V s i intensity L tMax = i.
Proof. unfold shade. now intros ->. Qed.

Lemma shade_unshadowed scene P N V s i intensity L tMax :
  fst (closestIntersection scene P L (dec 1 3) tMax) = None ->
  shade scene P N V s i intensity L tMax =
  shade {| lights := lights scene; spheres := [] |} P N V s i intensity L tMax.
Proof. unfold shade. now intros ->. Qed.

(** C1.  For every ray, interval and sphere list, [closestIntersection]
    returns [(null, +Infinity)] when no root of any sphere lies strictly
    inside [(tMin, tMax)], in particular for the empty list; otherwise it
    returns a sphere of the list together with one of its two roots, which
    lies strictly inside the interval and which no root inside the interval
    is smaller than.  The callers read only the sphere of a miss: [traceRay]
    returns the background, and the shadow test of [computeLighting] goes on
    as in a scene without spheres. *)
Theorem closestIntersection_smallest_root
        (scene : Scene float) (O D : vec float) (tMin tMax : float) :
  let res := closestIntersection scene O D tMin tMax in
  ((forall sphere t, In sphere (spheres scene) -> isRoot O D sphere t ->
                     inside tMin tMax t = false) ->
   res = (None, n_infinity))
  /\ ((exists sphere t, In sphere (spheres scene) /\ isRoot O D sphere t
                        /\ inside tMin tMax t = true) ->
      exists sphere,
        fst res = Some sphere
        /\ In sphere (spheres scene)
        /\ isRoot O D sphere (snd res)
        /\ inside tMin tMax (snd res) = true
        /\ forall sphere' t',
            In sphere' (spheres scene) -> isRoot O D sphere' t' ->
            inside tMin tMax t' = true -> (t' <? snd res) = false)
  /\ (spheres scene = [] -> res = (None, n_infinity))
  /\ (fst res = None ->
      forall self depth,
        traceRayBody self scene O D tMin tMax depth = Some backgroundColor)
  /\ (forall N V s i intensity,
        fst (closestIntersection scene O D (dec 1 3) tMax) = None ->
        shade scene O N V s i intensity D tMax =
        shade {| lights := lights scene; spheres := [] |}
              O N V s i intensity D tMax).
Proof.
  cbv zeta. repeat split.
  - apply closestIntersection_none.
  - intros (sphere0 & t0 & Hs & Hr & Hi).
    destruct (@closestIntersection_hit _ _ _ O D tMin tMax scene _ _ Hs Hr Hi)
      as (sphere & t & E).
    exists sphere. rewrite E. cbn.
    destruct (@closestIntersection_some _ _ _ O D tMin tMax scene _ _ E)
      as (H1 & H2 & H3 & H4).
    auto.
  - intros E. unfold closestIntersection. now rewrite E.
  - intros Hnone self depth. now apply traceRayBody_miss.
  - intros N V s i intensity. apply shade_unshadowed.
Qed.

(** C9.  [closestIntersection] returns the null sphere exactly when it
    returns the distance [+Infinity]; a sphere that is returned belongs to
    the scene, and the distance returned with it lies strictly inside
    [(tMin, tMax)], is one of the two roots of that sphere, and is not the
    sentinel. *)
Theorem closestIntersection_sentinel
        (scene : Scene float) (O D : vec float) (tMin tMax : float) :
  let res := closestIntersection scene O D tMin tMax in
  (fst res = None <-> snd res = n_infinity)
  /\ (forall sphere, fst res = Some sphere ->
        In sphere (spheres scene)
        /\ inside tMin tMax (snd res) = true
        /\ isRoot O D sphere (snd res)
        /\ snd res <> n_infinity).
Proof.
  cbv zeta. split; [apply closestIntersection_null_infinity|].
  intros sphere E.
  destruct (closestIntersection scene O D tMin tMax) as [s t] eqn:E'.
  cbn in E. subst s.
  destruct (@closestIntersection_some _ _ _ O D tMin tMax scene _ _ E')
    as (H1 & H2 & H3 & _).
  cbn. repeat split; auto.
  intros Hinf.
  pose proof (@closestIntersection_null_infinity _ _ _ O D tMin tMax scene)
    as [_ H].
  rewrite E' in H. cbn in H. specialize (H Hinf). discriminate.
Qed.

(** C6.  When no sphere has a root strictly inside [(tMin, tMax)],
    [traceRay] returns the background colour, for every depth.  In the
    one-sphere scenario the roots are 6 and 4, so with [tMax = 3] the
    result is the background colour. *)
Theorem traceRay_miss_background
        (scene : Scene float) (O D : vec float) (tMin tMax depth : float)
        (fuel : nat) :
  ((forall sphere t, In sphere (spheres scene) -> isRoot O D sphere t ->
                     inside tMin tMax t = false) ->
   traceRay (S fuel) scene O D tMin tMax depth = Some backgroundColor)
  /\ intersectRaySphere eye ahead redSphere = (n_lit 6, n_lit 4)
  /\ traceRay (S fuel) redScene eye ahead (n_lit 1) (n_lit 3) depth
     = Some backgroundColor.
Proof.
  split; [|split].
  - intros Hno. rewrite traceRay_unfold. apply traceRayBody_miss.
    now rewrite (closestIntersection_none O D tMin tMax scene Hno).
  - vm_compute. reflexivity.
  - rewrite traceRay_unfold. apply traceRayBody_miss.
    vm_compute. reflexivity.
Qed.

(** C7.  In the one-sphere scenario with [tMin = 1] and [tMax = +Infinity]
    the ray hits the sphere at [t = 4] and [traceRay] returns exactly
    [(255, 0, 0)]. *)
Theorem traceRay_red_sphere (depth : float) (fuel : nat) :
  closestIntersection redScene eye ahead (n_lit 1) n_infinity
  = (Some redSphere, 4%float)
  /\ traceRay (S fuel) redScene eye ahead (n_lit 1) n_infinity depth
     = Some [255%float; 0%float; 0%float].
Proof.
  assert (E : closestIntersection redScene eye ahead (n_lit 1) n_infinity
              = (Some redSphere, 4%float)) by (vm_compute; reflexivity).
  split; [exact E|].
  rewrite traceRay_unfold, (traceRayBody_stop _ _ _ _ _ _ _ _ _ E).
  - vm_compute. reflexivity.
  - apply orb_true_iff. right. vm_compute. reflexivity.
Qed.

(** C5.  With [depth = 0], [traceRay] returns without a recursive call:
    its result does not depend on what a recursive call would return, and
    one activation is enough.  On a hit with [depth <= 0] or
    [reflective <= 0] it returns [localColor] as it is. *)
Theorem traceRay_stops_without_recursion
        (scene : Scene float) (O D : vec float) (tMin tMax : float) :
  (forall self,
      traceRayBody self scene O D tMin tMax (n_lit 0)
      = traceRay 1 scene O D tMin tMax (n_lit 0))
  /\ (exists c, traceRay 1 scene O D tMin tMax (n_lit 0) = Some c)
  /\ (forall depth sphere t,
        closestIntersection scene O D tMin tMax = (Some sphere, t) ->
        (depth <=? n_lit 0) = true \/ (reflective sphere <=? n_lit 0) = true ->
        (forall self,
            traceRayBody self scene O D tMin tMax depth
            = Some (localColor scene O D sphere t))
        /\ (forall fuel,
              traceRay (S fuel) scene O D tMin tMax depth
              = Some (localColor scene O D sphere t))).
Proof.
  assert (Hstop : forall depth sphere t,
             closestIntersection scene O D tMin tMax = (Some sphere, t) ->
             (depth <=? n_lit 0) = true \/ (reflective sphere <=? n_lit 0) = true ->
             forall self,
               traceRayBody self scene O D tMin tMax depth
               = Some (localColor scene O D sphere t)).
  { intros depth sphere t E Hor self. apply traceRayBody_stop; [exact E|].
    apply orb_true_iff. exact Hor. }
  assert (Hzero : forall self, exists c,
               traceRayBody self scene O D tMin tMax (n_lit 0) = Some c
               /\ traceRay 1 scene O D tMin tMax (n_lit 0) = Some c).
  { intros self. rewrite traceRay_unfold.
    destruct (closestIntersection scene O D tMin tMax) as [[sphere|] t] eqn:E.
    - exists (localColor scene O D sphere t).
      split; apply Hstop; auto; left; vm_compute; reflexivity.
    - exists backgroundColor.
      split; apply traceRayBody_miss; now rewrite E. }
  split; [|split].
  - intros self. destruct (Hzero self) as (c & -> & ->). reflexivity.
  - destruct (Hzero (fun _ _ _ _ _ => None)) as (c & _ & Hc). now exists c.
  - intros depth sphere t E Hor. split.
    + now apply Hstop.
    + intros fuel. rewrite traceRay_unfold. now apply Hstop.
Qed.

Lemma lightStep_occluded scene P N V s i light :
  occluded scene P light -> lightStep scene P N V s i light = i.
Proof.
  intros (L & tMax & sphere0 & t0 & Hray & Hs & Hr & Hi).
  destruct (@closestIntersection_hit _ _ _ P L (dec 1 3) tMax scene _ _ Hs Hr Hi)
    as (sphere & t & E).
  destruct light as [a|a position|a direction]; cbn in Hray;
    [discriminate| |]; inversion Hray; subst; cbn;
    apply shade_shadowed with sphere; now rewrite E.
Qed.

(** C4.  For a point light the shadow test is
    [closestIntersection(P, position - P, 0.001, 1)] and for a directional
    light [closestIntersection(P, direction, 0.001, +Infinity)], where
    [0.001] is the double nearest to it, [0x1.0624dd2f1a9fcp-10].  When some
    sphere has a root strictly inside that interval, the light leaves the
    running intensity as it is, and the intensity [computeLighting] returns
    is the one returned without that light. *)
Theorem computeLighting_binary_shadow
        (scene : Scene float) (P N V : vec float) (s : float) :
  (forall i a position,
      lightStep scene P N V s i (Point a position)
      = shade scene P N V s i a (sub position P) 1%float)
  /\ (forall i a direction,
        lightStep scene P N V s i (Directional a direction)
        = shade scene P N V s i a direction infinity)
  /\ dec 1 3 = 0x1.0624dd2f1a9fcp-10%float
  /\ (forall i a L tMax,
        shade scene P N V s i a L tMax
        = match fst (closestIntersection scene P L (dec 1 3) tMax) with
          | Some _ => i
          | None => shade {| lights := lights scene; spheres := [] |}
                          P N V s i a L tMax
          end)
  /\ (forall i light,
        occluded scene P light -> lightStep scene P N V s i light = i)
  /\ (forall before light after,
        lights scene = before ++ light :: after ->
        occluded scene P light ->
        computeLighting scene P N V s
        = computeLighting {| lights := before ++ after;
                             spheres := spheres scene |} P N V s).
Proof.
  split; [|split; [|split; [|split; [|split]]]].
  - reflexivity.
  - reflexivity.
  - reflexivity.
  - intros i a L tMax.
    destruct (fst (closestIntersection scene P L (dec 1 3) tMax)) eqn:E.
    + now apply shade_shadowed with s0.
    + now apply shade_unshadowed.
  - intros i light. apply lightStep_occluded.
  - intros before light after Hl Hocc. unfold computeLighting.
    rewrite Hl. cbn [lights]. rewrite !fold_left_app. cbn [fold_left].
    rewrite (lightStep_occluded scene P N V s _ light Hocc). reflexivity.
Qed.


Lemma traceRay_countsDown scene n : forall depth,
    countsDown n depth ->
    forall O D tMin tMax fuel,
      (n < fuel)%nat ->
      exists c, traceRay fuel scene O D tMin tMax depth = Some c
                /\ traceRay (S n) scene O D tMin tMax depth = Some c.
Proof.
  induction n as [|n IH]; intros depth Hd O D tMin tMax fuel Hfuel;
    (destruct fuel as [|fuel]; [lia|]); cbn [countsDown] in Hd;
    rewrite !traceRay_unfold;
    destruct (closestIntersection scene O D tMin tMax) as [[sphere|] t] eqn:E;
    try (exists backgroundColor; split; apply traceRayBody_miss; now rewrite E).
  - exists (localColor scene O D sphere t).
    split; apply traceRayBody_stop; auto; now rewrite Hd.
  - destruct Hd as [Hpos Hd].
    destruct ((depth <=? n_lit 0) || (reflective sphere <=? n_lit 0)) eqn:Hstop.
    + exists (localColor scene O D sphere t).
      split; apply traceRayBody_stop; auto.
    + rewrite !(traceRayBody_blend _ _ _ _ _ _ _ _ _ E Hstop).
      destruct (IH _ Hd (hitPoint O D t)
                   (reflectRay (scale (n_neg (n_lit 1)) D)
                               (hitNormal (hitPoint O D t) sphere))
                   (dec 1 3) n_infinity fuel ltac:(lia)) as (c & -> & ->).
      eexists; split; reflexivity.
Qed.






(** The two branches of [intersectRaySphere] in terms of the named
    coefficients; the second one is also the branch of a [NaN]
    discriminant. *)
Lemma intersectRaySphere_formula (O D : vec float) (sphere : Sphere float) :
  let k1 := coeff_k1 D in
  let k2 := coeff_k2 O D sphere in
  let k3 := coeff_k3 O sphere in
  let disc := discriminant O D sphere in
  disc = k2 ** n_lit 2 - n_lit 4 * k1 * k3
  /\ ((disc <? n_lit 0) = true ->
      intersectRaySphere O D sphere = (n_infinity, n_infinity))
  /\ ((disc <? n_lit 0) = false ->
      intersectRaySphere O D sphere
      = ((n_neg k2 + n_sqrt disc) / (n_lit 2 * k1),
         (n_neg k2 - n_sqrt disc) / (n_lit 2 * k1))).
Proof.
  cbv zeta. split; [reflexivity|].
  unfold intersectRaySphere.
  fold (coeff_k1 D) (coeff_k2 O D sphere) (coeff_k3 O sphere).
  fold (discriminant O D sphere).
  split; intros ->; reflexivity.
Qed.

(** Once [traceRay] returns within some number of activations, it returns
    the same colour within any larger number. *)
Lemma traceRay_fuel_mono scene fuel : forall O D tMin tMax depth c,
    traceRay fuel scene O D tMin tMax depth = Some c ->
    forall fuel', (fuel <= fuel')%nat ->
                  traceRay fuel' scene O D tMin tMax depth = Some c.
Proof.
  induction fuel as [|fuel IH]; intros O D tMin tMax depth c H fuel' Hle;
    [discriminate|].
  destruct fuel' as [|fuel']; [lia|].
  rewrite traceRay_unfold in *. unfold traceRayBody in *.
  destruct (closestIntersection scene O D tMin tMax) as [[sphere|] t];
    [|exact H].
  destruct ((depth <=? n_lit 0) || (reflective sphere <=? n_lit 0)); [exact H|].
  destruct (traceRay fuel scene (hitPoint O D t)
                     (reflectRay (scale (n_neg (n_lit 1)) D)
                                 (hitNormal (hitPoint O D t) sphere))
                     (dec 1 3) n_infinity (depth - n_lit 1)) as [c'|] eqn:E;
    [|discriminate].
  rewrite (IH _ _ _ _ _ _ E fuel') by lia. exact H.
Qed.

(** X1.  With a single ambient light of intensity [I], [computeLighting]
    returns [0 + I] whatever the point, the normal, the view vector and the
    specular exponent: the same number as [I], and [I] itself unless [I] is
    the negative zero. *)
Theorem computeLighting_single_ambient
        (scene : Scene float) (P N V : vec float) (s I : float) :
  lights scene = [Ambient I] ->
  computeLighting scene P N V s = n_lit 0 + I
  /\ same (computeLighting scene P N V s) I.
Proof.
  intros Hl. unfold computeLighting. rewrite Hl. cbn [fold_left lightStep].
  split; [reflexivity|].
  exact (F64Arith.add_zero_l 0%float I false F64Arith.Prim2SF_zero).
Qed.

End Binary64.

(* ================================================================= *)
(** ** The formulas before rounding *)

Section BeforeRounding.
Context {libm64 : Libm float} {libmx : Libm Exact.xreal}.
Import Exact ExactVectors.
Local Open Scope R_scope.

Lemma coefficients_fin (o d c : list R) (rad : R) (sphere : Sphere xreal) :
  length o = length d -> length c = length d ->
  center sphere = fin c -> radius sphere = XFin rad ->
  coeff_k1 (fin d) = XFin (rdot d d)
  /\ coeff_k2 (fin o) (fin d) sphere = XFin (2 * rdot (rzip Rminus o c) d)
  /\ coeff_k3 (fin o) sphere
     = XFin (rdot (rzip Rminus o c) (rzip Rminus o c) - rad * rad).
Proof.
  intros Ho Hc Hcenter Hrad.
  assert (Hoc : length (rzip Rminus o c) = length d)
    by (rewrite length_rzip; congruence).
  unfold coeff_k1, coeff_k2, coeff_k3.
  rewrite Hcenter, Hrad, sub_fin, !dot_fin, pow_two by congruence.
  repeat split; reflexivity.
Qed.

Lemma quadratic_root (k1 k2 k3 s t : R) :
  k1 <> 0 -> s * s = k2 * k2 - 4 * k1 * k3 ->
  t = (- k2 + s) / (2 * k1) ->
  k1 * t * t + k2 * t + k3 = 0.
Proof.
  intros Hk Hs ->.
  replace (k1 * ((- k2 + s) / (2 * k1)) * ((- k2 + s) / (2 * k1))
           + k2 * ((- k2 + s) / (2 * k1)) + k3)
    with ((s * s - (k2 * k2 - 4 * k1 * k3)) / (4 * k1)) by (field; exact Hk).
  rewrite Hs. field. exact Hk.
Qed.

Lemma intersectRaySphere_fin (o d c : list R) (rad : R) (sphere : Sphere xreal) :
  length o = length d -> length c = length d ->
  center sphere = fin c -> radius sphere = XFin rad ->
  let k1 := rdot d d in
  let k2 := 2 * rdot (rzip Rminus o c) d in
  let k3 := rdot (rzip Rminus o c) (rzip Rminus o c) - rad * rad in
  k1 <> 0 -> 0 <= k2 * k2 - 4 * k1 * k3 ->
  intersectRaySphere (fin o) (fin d) sphere
  = (XFin ((- k2 + R_sqrt.sqrt (k2 * k2 - 4 * k1 * k3)) / (2 * k1)),
     XFin ((- k2 - R_sqrt.sqrt (k2 * k2 - 4 * k1 * k3)) / (2 * k1))).
Proof.
  intros Ho Hc Hcenter Hrad k1 k2 k3 Hk1 Hdisc.
  destruct (coefficients_fin o d c rad sphere Ho Hc Hcenter Hrad)
    as (E1 & E2 & E3).
  unfold intersectRaySphere.
  fold (coeff_k1 (fin d)) (coeff_k2 (fin o) (fin d) sphere)
       (coeff_k3 (fin o) sphere).
  rewrite E1, E2, E3. fold k1 k2 k3.
  rewrite pow_two.
  change (n_sub (XFin (k2 * k2)) (n_mul (n_mul (n_lit 4) (XFin k1)) (XFin k3)))
    with (XFin (k2 * k2 - 4 * k1 * k3)).
  change (n_lt (XFin (k2 * k2 - 4 * k1 * k3)) (n_lit 0))
    with (Rltb (k2 * k2 - 4 * k1 * k3) 0).
  rewrite (Rltb_ge _ _ Hdisc).
  change (n_sqrt (XFin (k2 * k2 - 4 * k1 * k3)))
    with (if Rltb (k2 * k2 - 4 * k1 * k3) 0 then XNaN
          else XFin (R_sqrt.sqrt (k2 * k2 - 4 * k1 * k3))).
  rewrite (Rltb_ge _ _ Hdisc).
  cbn. rewrite Reqb_neq by lra. reflexivity.
Qed.

(** C2 (amended).  On binary64, [intersectRaySphere] returns
    [(+Infinity, +Infinity)] when [disc < 0] and otherwise the quotients
    [(-k2 + sqrt(disc)) / (2*k1)] and [(-k2 - sqrt(disc)) / (2*k1)], in
    this order.  In exact arithmetic, for vectors of real numbers of one
    length, the three coefficients are real numbers, and when [k1 <> 0] and
    [disc >= 0] the two values returned are real numbers, symmetric about
    [-k2/(2*k1)], and each satisfies [k1*t^2 + k2*t + k3 = 0]. *)
Theorem intersectRaySphere_roots :
  (forall (O D : vec float) (sphere : Sphere float),
      let k1 := coeff_k1 D in
      let k2 := coeff_k2 O D sphere in
      let k3 := coeff_k3 O sphere in
      let disc := discriminant O D sphere in
      disc = n_sub (n_pow k2 (n_lit 2)) (n_mul (n_mul (n_lit 4) k1) k3)
      /\ (n_lt disc (n_lit 0) = true ->
          intersectRaySphere O D sphere = (n_infinity, n_infinity))
      /\ (n_lt disc (n_lit 0) = false ->
          intersectRaySphere O D sphere
          = (n_div (n_add (n_neg k2) (n_sqrt disc)) (n_mul (n_lit 2) k1),
             n_div (n_sub (n_neg k2) (n_sqrt disc)) (n_mul (n_lit 2) k1))))
  /\ (forall (o d c : list R) (rad : R) (sphere : Sphere xreal),
        length o = length d -> length c = length d ->
        center sphere = fin c -> radius sphere = XFin rad ->
        exists k1 k2 k3 : R,
          coeff_k1 (fin d) = XFin k1
          /\ coeff_k2 (fin o) (fin d) sphere = XFin k2
          /\ coeff_k3 (fin o) sphere = XFin k3)
  /\ (forall (o d c : list R) (rad : R) (sphere : Sphere xreal) (k1 k2 k3 : R),
        length o = length d -> length c = length d ->
        center sphere = fin c -> radius sphere = XFin rad ->
        coeff_k1 (fin d) = XFin k1 ->
        coeff_k2 (fin o) (fin d) sphere = XFin k2 ->
        coeff_k3 (fin o) sphere = XFin k3 ->
        k1 <> 0 -> 0 <= k2 * k2 - 4 * k1 * k3 ->
        exists t1 t2 : R,
          intersectRaySphere (fin o) (fin d) sphere = (XFin t1, XFin t2)
          /\ t1 - - k2 / (2 * k1) = - k2 / (2 * k1) - t2
          /\ k1 * t1 * t1 + k2 * t1 + k3 = 0
          /\ k1 * t2 * t2 + k2 * t2 + k3 = 0).
Proof.
  split; [|split].
  - intros O D sphere. apply intersectRaySphere_formula.
  - intros o d c rad sphere Ho Hc Hcenter Hrad.
    destruct (coefficients_fin o d c rad sphere Ho Hc Hcenter Hrad)
      as (E1 & E2 & E3).
    eexists _, _, _. split; [exact E1|]. split; [exact E2|]. exact E3.
  - intros o d c rad sphere k1' k2' k3' Ho Hc Hcenter Hrad F1 F2 F3.
    destruct (coefficients_fin o d c rad sphere Ho Hc Hcenter Hrad)
      as (E1 & E2 & E3).
    rewrite E1 in F1. rewrite E2 in F2. rewrite E3 in F3.
    injection F1 as <-. injection F2 as <-. injection F3 as <-.
    intros Hk1 Hdisc.
    eexists _, _.
    split; [apply (intersectRaySphere_fin o d c rad sphere); assumption|].
    set (k1 := rdot d d) in *.
    set (k2 := 2 * rdot (rzip Rminus o c) d) in *.
    set (k3 := rdot (rzip Rminus o c) (rzip Rminus o c) - rad * rad) in *.
    pose proof (sqrt_sqrt _ Hdisc) as Hs.
    set (s := R_sqrt.sqrt (k2 * k2 - 4 * k1 * k3)) in *.
    split; [field; exact Hk1|]. split.
    + now apply (quadratic_root k1 k2 k3 s).
    + apply (quadratic_root k1 k2 k3 (- s)); [exact Hk1|lra|].
      unfold Rminus. reflexivity.
Qed.

(** C10 (amended).  In exact arithmetic, for vectors [R] and [N] of real
    numbers of one length with [dot(N,N) = 1], reflecting [R] about [N]
    twice gives [R] back. *)
Theorem reflectRay_involution_exact (r n : list R) :
  length r = length n ->
  dot (fin n) (fin n) = n_lit 1 ->
  reflectRay (reflectRay (fin r) (fin n)) (fin n) = fin r.
Proof.
  intros Hlen Hunit.
  rewrite dot_fin in Hunit by reflexivity.
  assert (Hn : rdot n n = 1) by (cbn in Hunit; congruence).
  rewrite (reflectRay_fin r n Hlen).
  assert (Hlen' : length (rzip Rminus (map (fun x => x * (2 * rdot n r)) n) r)
                  = length n).
  { rewrite length_rzip; [exact Hlen|]. now rewrite length_map. }
  rewrite reflectRay_fin by exact Hlen'.
  rewrite rdot_reflect, Hn by exact Hlen.
  replace (2 * (2 * rdot n r * 1 - rdot n r)) with (2 * rdot n r) by lra.
  now rewrite rzip_reflect_twice.
Qed.

End BeforeRounding.

(* ================================================================= *)
(** ** Closed examples on binary64 *)

Section Examples.
#[local] Existing Instance F64.no_pow.






(** C2, counterexample.  From the centre of the unit sphere along
    [(1,1,0)] the first root is the double [0x1.6a09e667f3bcdp-1] (about
    0.7071) and [k1*t^2 + k2*t + k3] evaluates to [2^-52], not [0].  For
    the direction [(0,0,0)] the discriminant is [0] and both roots are
    [NaN]. *)
Lemma intersectRaySphere_roots_inexact :
  n_lt (discriminant eye diagonal hallSphere) (n_lit 0) = false
  /\ intersectRaySphere eye diagonal hallSphere
     = (0x1.6a09e667f3bcdp-1, -0x1.6a09e667f3bcdp-1)%float
  /\ n_add (n_add (n_mul (coeff_k1 diagonal)
                         (n_pow 0x1.6a09e667f3bcdp-1%float (n_lit 2)))
                  (n_mul (coeff_k2 eye diagonal hallSphere)
                         0x1.6a09e667f3bcdp-1%float))
           (coeff_k3 eye hallSphere)
     = 0x1p-52%float
  /\ n_eq 0x1p-52%float (n_lit 0) = false
  /\ n_lt (discriminant eye eye redSphere) (n_lit 0) = false
  /\ intersectRaySphere eye eye redSphere = (nan, nan).
Proof. vm_compute. repeat split. Qed.


(** C10, counterexample.  [tilted] is [(0.6, 0.8, 0)] and
    [dot(tilted, tilted)] evaluates to exactly [1]; reflecting
    [(0.1, 0.2, 0.3)] about it twice gives
    [(0.10000000000000006, 0.20000000000000007, 0.3)]. *)
Lemma reflectRay_twice_rounds :
  dot tilted tilted = 1%float
  /\ reflectRay (reflectRay tenths tilted) tilted
     = [0x1.999999999999ep-4; 0x1.999999999999cp-3; 0x1.3333333333333p-2]%float
  /\ tenths
     = [0x1.999999999999ap-4; 0x1.999999999999ap-3; 0x1.3333333333333p-2]%float
  /\ n_eq 0x1.999999999999ep-4%float 0x1.999999999999ap-4%float = false.
Proof. vm_compute. repeat split. Qed.

(** Witness of C1: in the one-sphere scenario the root [4] lies inside
    [(1, +Infinity)], and the sphere comes back. *)
Lemma closestIntersection_smallest_root_red :
  exists sphere,
    fst (closestIntersection redScene eye ahead (n_lit 1) n_infinity)
    = Some sphere
    /\ In sphere (spheres redScene)
    /\ isRoot eye ahead sphere
              (snd (closestIntersection redScene eye ahead (n_lit 1) n_infinity))
    /\ inside (n_lit 1) n_infinity
              (snd (closestIntersection redScene eye ahead (n_lit 1) n_infinity))
       = true
    /\ forall sphere' t',
        In sphere' (spheres redScene) -> isRoot eye ahead sphere' t' ->
        inside (n_lit 1) n_infinity t' = true ->
        n_lt t' (snd (closestIntersection redScene eye ahead (n_lit 1) n_infinity))
        = false.
Proof.
  apply (proj1 (proj2 (closestIntersection_smallest_root
                         redScene eye ahead (n_lit 1) n_infinity))).
  exists redSphere, 4%float.
  split; [left; reflexivity|].
  split; [right; vm_compute; reflexivity|vm_compute; reflexivity].
Defined.

(** Witness of C9: the sphere returned in the one-sphere scenario. *)
Lemma closestIntersection_sentinel_red :
  In redSphere (spheres redScene)
  /\ inside (n_lit 1) n_infinity
            (snd (closestIntersection redScene eye ahead (n_lit 1) n_infinity))
     = true
  /\ isRoot eye ahead redSphere
            (snd (closestIntersection redScene eye ahead (n_lit 1) n_infinity))
  /\ snd (closestIntersection redScene eye ahead (n_lit 1) n_infinity)
     <> n_infinity.
Proof.
  apply (proj2 (closestIntersection_sentinel
                  redScene eye ahead (n_lit 1) n_infinity) redSphere).
  vm_compute. reflexivity.
Defined.

(** Witness of C6: neither root of the scenario lies inside [(1, 3)]. *)
Lemma traceRay_miss_background_red :
  traceRay 1 redScene eye ahead (n_lit 1) (n_lit 3) defaultDepth
  = Some backgroundColor.
Proof.
  apply (proj1 (traceRay_miss_background
                  redScene eye ahead (n_lit 1) (n_lit 3) defaultDepth 0)).
  intros sphere t [<-|[]] [->| ->]; vm_compute; reflexivity.
Defined.

(** Witness of C5: the sphere of the scenario is not reflective. *)
Lemma traceRay_stops_red :
  traceRay 1 redScene eye ahead (n_lit 1) n_infinity defaultDepth
  = Some (localColor redScene eye ahead redSphere 4%float).
Proof.
  apply (proj2 (proj2 (traceRay_stops_without_recursion
                         redScene eye ahead (n_lit 1) n_infinity))
               defaultDepth redSphere 4%float).
  - vm_compute. reflexivity.
  - right. vm_compute. reflexivity.
Defined.

(** Witness of C4: [redSphere] stands between [eye] and [lamp], with
    roots [0.6] and [0.4] on the shadow ray. *)
Lemma lightStep_lamp_shadowed :
  lightStep redScene eye north north (n_lit 10) (n_lit 5) lamp = n_lit 5.
Proof.
  apply (proj1 (proj2 (proj2 (proj2 (proj2
           (computeLighting_binary_shadow redScene eye north north (n_lit 10))))))).
  exists (sub [n_lit 0; n_lit 0; n_lit 10] eye), (n_lit 1), redSphere,
    (fst (intersectRaySphere eye (sub [n_lit 0; n_lit 0; n_lit 10] eye) redSphere)).
  split; [reflexivity|]. split; [left; reflexivity|].
  split; [left; reflexivity|vm_compute; reflexivity].
Defined.


(** Witness of X1: the light of the one-sphere scenario. *)
Lemma computeLighting_single_ambient_red :
  computeLighting redScene eye north north (n_lit 10) = n_add (n_lit 0) (n_lit 1)
  /\ same (computeLighting redScene eye north north (n_lit 10)) (n_lit 1).
Proof.
  apply (computeLighting_single_ambient redScene eye north north (n_lit 10)
                                        (n_lit 1)).
  reflexivity.
Defined.


End Examples.

(* ================================================================= *)
(** ** Closed examples in exact arithmetic *)

Section ExactExamples.
#[local] Existing Instance F64.no_pow.
#[local] Existing Instance Exact.no_pow.
Import Exact ExactVectors.
Local Open Scope R_scope.

(** Witness of C2: in the scenario [k1 = 1], [k2 = -10], [k3 = 24]. *)
Lemma intersectRaySphere_roots_red :
  exists t1 t2 : R,
    intersectRaySphere (fin [0; 0; 0]) (fin [0; 0; 1]) redSphereExact
    = (XFin t1, XFin t2)
    /\ t1 - - (-10) / (2 * 1) = - (-10) / (2 * 1) - t2
    /\ 1 * t1 * t1 + -10 * t1 + 24 = 0
    /\ 1 * t2 * t2 + -10 * t2 + 24 = 0.
Proof.
  apply (proj2 (proj2 intersectRaySphere_roots)
               [0; 0; 0] [0; 0; 1] [0; 0; 5] 1 redSphereExact 1 (-10) 24);
    try reflexivity.
  - unfold coeff_k1. rewrite dot_fin by reflexivity.
    f_equal. unfold rdot. cbn. lra.
  - unfold coeff_k2. cbn [center redSphereExact].
    rewrite sub_fin, dot_fin by reflexivity.
    cbn. f_equal. unfold rdot. cbn. lra.
  - unfold coeff_k3. cbn [center radius redSphereExact].
    rewrite sub_fin, dot_fin, pow_two by reflexivity.
    cbn. f_equal. unfold rdot. cbn. lra.
  - lra.
  - lra.
Defined.

(** Witness of C10: [(3/5, 4/5, 0)] is a unit vector over the reals. *)
Lemma reflectRay_involution_exact_tilted :
  reflectRay (reflectRay (fin [1; 2; 3]) (fin [3 / 5; 4 / 5; 0]))
             (fin [3 / 5; 4 / 5; 0])
  = fin [1; 2; 3].
Proof.
  apply (reflectRay_involution_exact [1; 2; 3] [3 / 5; 4 / 5; 0]).
  - reflexivity.
  - rewrite dot_fin by reflexivity. cbn. f_equal. unfold rdot. cbn. lra.
Defined.

End ExactExamples.

(* ================================================================= *)
(** * Further properties *)

(* ================================================================= *)
(** ** More on the nearest-hit search *)

Section NearestOrder.
Context {num : Type} {ops : JSNumber num} {ord : JSNumberOrder num}.
Local Open Scope js_scope.

Variables (O D : vec num) (tMin tMax : num).

Lemma inside_nonempty (t : num) :
  inside tMin tMax t = true -> (tMin <? tMax) = true.
Proof.
  unfold inside. intros H. apply andb_true_iff in H as [H1 H2].
  now apply n_lt_trans with t.
Qed.

(** One test either keeps the state or lowers the distance. *)
Lemma consider_lowers st sphere t :
  consider tMin tMax st sphere t = st
  \/ (snd (consider tMin tMax st sphere t) <? snd st) = true.
Proof.
  unfold consider.
  destruct (inside tMin tMax t && (t <? snd st)) eqn:E; [|now left].
  right. apply andb_true_iff in E as [_ E]. exact E.
Qed.

Lemma fold_lowers l : forall st,
    fold_left (closestStep O D tMin tMax) l st = st
    \/ (snd (fold_left (closestStep O D tMin tMax) l st) <? snd st) = true.
Proof.
  induction l as [|sphere l IH]; intros st; cbn [fold_left]; [now left|].
  rewrite closestStep_consider.
  set (t1 := fst (intersectRaySphere O D sphere)).
  set (t2 := snd (intersectRaySphere O D sphere)).
  set (st1 := consider tMin tMax st sphere t1).
  set (st2 := consider tMin tMax st1 sphere t2).
  assert (H2 : st2 = st \/ (snd st2 <? snd st) = true).
  { pose proof (consider_lowers st sphere t1) as H1.
    pose proof (consider_lowers st1 sphere t2) as H2.
    fold st1 in H1. fold st2 in H2.
    destruct H1 as [E1|L1], H2 as [E2|L2].
    - left. congruence.
    - right. now rewrite <- E1.
    - right. now rewrite E2.
    - right. now apply n_lt_trans with (snd st1). }
  destruct (IH st2) as [E|L].
  - rewrite E. exact H2.
  - destruct H2 as [E2|L2].
    + right. rewrite <- E2. exact L.
    + right. now apply n_lt_trans with (snd st2).
Qed.

End NearestOrder.

Module F64Total.
Import F64Order.

Lemma lexlt_total e1 m1 e2 m2 :
  lexlt e1 m1 e2 m2 \/ (e1 = e2 /\ m1 = m2) \/ lexlt e2 m2 e1 m1.
Proof. unfold lexlt. lia. Qed.

(** Below [b] and not [NaN]: a number that is not above [a] is below [b]. *)
Lemma SFltb_cotrans (a b c d : spec_float) :
  SFltb a b = true -> SFltb d c = true ->
  SFltb a c = true \/ SFltb c b = true.
Proof.
  destruct a as [sa|sa| |sa ma ea], b as [sb|sb| |sb mb eb],
           c as [sc|sc| |sc mc ec], d as [sd|sd| |sd md ed];
    try (unfold SFltb; cbn; discriminate);
    try (unfold SFltb; cbn;
         repeat match goal with s : bool |- _ => destruct s end;
         cbn; intros; try discriminate; auto; fail).
  all: rewrite ?SFltb_finite.
  all: try (repeat match goal with s : bool |- _ => destruct s end;
            unfold SFltb; cbn; intros; try discriminate; try tauto; auto; fail).
  all: intros H1 _; destruct sa, sb, sc; try tauto;
    destruct (lexlt_total ea ma ec mc) as [H|[[-> ->]|H]]; auto;
    try (right; eapply lexlt_trans; eassumption);
    try (left; eapply lexlt_trans; eassumption).
Qed.

Lemma ltb_cotrans (a b c d : float) :
  PrimFloat.ltb a b = true -> PrimFloat.ltb d c = true ->
  PrimFloat.ltb a c = true \/ PrimFloat.ltb c b = true.
Proof. rewrite !FloatAxioms.ltb_spec. apply SFltb_cotrans. Qed.

End F64Total.

Section NearestBinary64.
Context {libm : Libm float}.
Local Open Scope js_scope.

(** What the loop knows about ties after the roots [seen]: the root it
    holds stands somewhere in [seen], every root inside the interval
    before it is greater, and none after it is smaller. *)
Definition firstBest (tMin tMax : float) (seen : list (Sphere float * float))
           (st : option (Sphere float) * float) : Prop :=
  match fst st with
  | None =>
    snd st = n_infinity
    /\ forall c, In c seen -> inside tMin tMax (snd c) = false
  | Some sphere =>
    exists before after,
    seen = before ++ (sphere, snd st) :: after
    /\ (forall c, In c before -> inside tMin tMax (snd c) = true ->
                  (snd st <? snd c) = true)
    /\ (forall c, In c after -> inside tMin tMax (snd c) = true ->
                  (snd c <? snd st) = false)
  end.

Lemma firstBest_consider tMin tMax seen st sphere t :
  firstBest tMin tMax seen st ->
  firstBest tMin tMax (seen ++ [(sphere, t)]) (consider tMin tMax st sphere t).
Proof.
  unfold consider. intros Hb.
  destruct (inside tMin tMax t && (t <? snd st)) eqn:E.
  - apply andb_true_iff in E as [Hin Hlt]. cbn [firstBest fst snd].
    exists seen, []. split; [reflexivity|]. split; [|intros c []].
    intros c Hc Hci. unfold firstBest in Hb.
    destruct (fst st) as [sphere0|].
    + destruct Hb as (before & after & -> & Hbefore & Hafter).
      apply in_app_or in Hc as [Hc|[<-|Hc]].
      * apply n_lt_trans with (snd st); [exact Hlt|now apply Hbefore].
      * exact Hlt.
      * pose proof Hci as Hlo. unfold inside in Hlo.
        apply andb_true_iff in Hlo as [Hlo _].
        destruct (F64Total.ltb_cotrans t (snd st) (snd c) tMin Hlt Hlo)
          as [H|H]; [exact H|].
        pose proof (Hafter c Hc Hci) as Hf.
        change (PrimFloat.ltb (snd c) (snd st) = false) in Hf. congruence.
    + destruct Hb as [_ Hno]. now rewrite (Hno c Hc) in Hci.
  - unfold firstBest in *. destruct (fst st) as [sphere0|].
    + destruct Hb as (before & after & -> & Hbefore & Hafter).
      exists before, (after ++ [(sphere, t)]).
      split; [now rewrite <- app_assoc|]. split; [exact Hbefore|].
      intros c Hc Hci. apply in_app_or in Hc as [Hc|[<-|[]]];
        [now apply Hafter|].
      cbn [snd] in *. now rewrite Hci in E.
    + destruct Hb as [Hinf Hno]. split; [exact Hinf|].
      intros c Hc. apply in_app_or in Hc as [Hc|[<-|[]]]; [now apply Hno|].
      cbn [snd]. destruct (inside tMin tMax t) eqn:Hi; [|reflexivity].
      cbn [andb] in E. rewrite Hinf in E.
      unfold inside in Hi. apply andb_true_iff in Hi as [_ Hi].
      apply n_lt_top in Hi. now rewrite Hi in E.
Qed.

Lemma firstBest_fold O D tMin tMax l : forall seen st,
    firstBest tMin tMax seen st ->
    firstBest tMin tMax (seen ++ candidates O D l)
              (fold_left (closestStep O D tMin tMax) l st).
Proof.
  induction l as [|sphere l IH]; intros seen st Hb; cbn [fold_left].
  - cbn. now rewrite app_nil_r.
  - rewrite closestStep_consider.
    change (candidates O D (sphere :: l))
      with ([(sphere, fst (intersectRaySphere O D sphere))]
              ++ [(sphere, snd (intersectRaySphere O D sphere))]
              ++ candidates O D l).
    rewrite !app_assoc. apply IH. now do 2 apply firstBest_consider.
Qed.

(** X2.  When [tMin < tMax] does not hold (an empty or inverted interval,
    or a [NaN] bound), [closestIntersection] finds nothing and [traceRay]
    returns the background colour, whatever the scene. *)
Theorem closestIntersection_empty_interval
        (scene : Scene float) (O D : vec float) (tMin tMax : float) :
  (tMin <? tMax) = false ->
  closestIntersection scene O D tMin tMax = (None, n_infinity)
  /\ forall fuel depth,
      traceRay (S fuel) scene O D tMin tMax depth = Some backgroundColor.
Proof.
  intros Hempty.
  assert (E : closestIntersection scene O D tMin tMax = (None, n_infinity)).
  { apply closestIntersection_none. intros sphere t _ _.
    destruct (inside tMin tMax t) eqn:Hi; [|reflexivity].
    apply inside_nonempty in Hi. congruence. }
  split; [exact E|].
  intros fuel depth. rewrite traceRay_unfold. apply traceRayBody_miss.
  now rewrite E.
Qed.

(** X3.  Spheres added at the end of the list are scanned from the state
    the first ones leave, and they either change nothing or lower the
    distance: a hit stays a hit and never moves away. *)
Theorem closestIntersection_more_spheres
        (ls : list (Light float)) (l l' : list (Sphere float))
        (O D : vec float) (tMin tMax : float) :
  let near := closestIntersection {| lights := ls; spheres := l |}
                                  O D tMin tMax in
  let far := closestIntersection {| lights := ls; spheres := l ++ l' |}
                                 O D tMin tMax in
  far = fold_left (closestStep O D tMin tMax) l' near
  /\ (far = near \/ (snd far <? snd near) = true)
  /\ (snd near <? snd far) = false
  /\ (fst far = None -> fst near = None).
Proof.
  cbv zeta. unfold closestIntersection. cbn [spheres].
  rewrite fold_left_app.
  set (near := fold_left (closestStep O D tMin tMax) l (None, n_infinity)).
  assert (Hnear : best tMin tMax (candidates O D l) near).
  { apply (best_fold O D tMin tMax l [] (None, n_infinity)).
    cbn. split; [reflexivity|]. intros c []. }
  pose proof (best_fold O D tMin tMax l' (candidates O D l) near Hnear) as Hfar.
  pose proof (fold_lowers O D tMin tMax l' near) as Hl.
  remember (fold_left (closestStep O D tMin tMax) l' near) as far eqn:Efar.
  clear Efar.
  split; [reflexivity|]. split; [exact Hl|]. split.
  - destruct Hl as [E|Hl]; [rewrite E; apply n_lt_irrefl|].
    destruct (snd near <? snd far) eqn:E; [|reflexivity].
    pose proof (n_lt_trans _ _ _ Hl E) as H. now rewrite n_lt_irrefl in H.
  - intros Hnone. destruct Hl as [E|Hl]; [now rewrite <- E|].
    unfold best in Hfar. rewrite Hnone in Hfar. destruct Hfar as [Hinf _].
    rewrite Hinf in Hl. now rewrite n_lt_infinity in Hl.
Qed.

(** X4.  Ties go to the first root in scan order (sphere by sphere, [t1]
    before [t2]): the root that comes back stands in the sequence of all
    roots so that every root inside the interval before it is strictly
    greater, and no root inside the interval after it is smaller. *)
Theorem closestIntersection_first_wins
        (scene : Scene float) (O D : vec float) (tMin tMax : float)
        (sphere : Sphere float) (t : float) :
  closestIntersection scene O D tMin tMax = (Some sphere, t) ->
  exists before after,
    candidates O D (spheres scene) = before ++ (sphere, t) :: after
    /\ (forall c, In c before -> inside tMin tMax (snd c) = true ->
                  (t <? snd c) = true)
    /\ (forall c, In c after -> inside tMin tMax (snd c) = true ->
                  (snd c <? t) = false).
Proof.
  intros E.
  pose proof (firstBest_fold O D tMin tMax (spheres scene) []
                             (None, n_infinity)) as Hb.
  cbn [app] in Hb. fold (closestIntersection scene O D tMin tMax) in Hb.
  rewrite E in Hb. apply Hb.
  cbn. split; [reflexivity|]. intros c [].
Qed.

End NearestBinary64.

(* ================================================================= *)
(** ** Binary64: the integers below [2^53] *)

Module F64Integers.

Lemma iter_pos_comm {A} (f : A -> A) (n : positive) : forall x,
    SpecFloat.iter_pos f n (f x) = f (SpecFloat.iter_pos f n x).
Proof.
  induction n as [n IH|n IH|]; intros x; cbn; [| |reflexivity]; now rewrite !IH.
Qed.

Lemma iter_pos_iter {A} (f : A -> A) (n : positive) : forall x,
    SpecFloat.iter_pos f n x = Pos.iter f x n.
Proof.
  induction n as [n IH|n IH|]; intros x; cbn; [| |reflexivity].
  - now rewrite !iter_pos_comm, !IH.
  - now rewrite !IH.
Qed.

(** [p] shifted left by [n] bits. *)
Definition shl (p : positive) (n : N) : positive :=
  match n with N0 => p | Npos q => Pos.iter xO p q end.

Lemma shl_succ p n : shl p (N.succ n) = xO (shl p n).
Proof.
  destruct n as [|q]; cbn; [reflexivity|]. now rewrite Pos.iter_succ.
Qed.

Lemma digits_shl p n :
  Zpos (digits2_pos (shl p n)) = (Zpos (digits2_pos p) + Z.of_N n)%Z.
Proof.
  induction n as [|n IH] using N.peano_ind; [cbn; lia|].
  rewrite shl_succ. cbn [digits2_pos]. lia.
Qed.

Lemma shl_add p n m : shl (shl p n) m = shl p (n + m).
Proof.
  induction m as [|m IH] using N.peano_ind; [now rewrite N.add_0_r|].
  now rewrite N.add_succ_r, !shl_succ, IH.
Qed.

Lemma Zpos_shl p n : Zpos (shl p n) = (Zpos p * 2 ^ Z.of_N n)%Z.
Proof.
  induction n as [|n IH] using N.peano_ind; [cbn; lia|].
  rewrite shl_succ, N2Z.inj_succ, Z.pow_succ_r by lia. lia.
Qed.

(** A mantissa with nothing shifted out. *)
Definition exact (m : Z) := {| shr_m := m; shr_r := false; shr_s := false |}.

Lemma shr_shl (q : positive) (n : positive) :
  SpecFloat.iter_pos shr_1 n (exact (Zpos (shl q (Npos n)))) = exact (Zpos q).
Proof.
  rewrite iter_pos_iter.
  induction n as [|n IH] using Pos.peano_ind.
  - reflexivity.
  - rewrite Pos.iter_succ_r.
    change (Npos (Pos.succ n)) with (N.succ (Npos n)).
    rewrite shl_succ. exact IH.
Qed.

Lemma digits_size p : digits2_pos p = Pos.size p.
Proof.
  induction p as [q IH|q IH|]; cbn [digits2_pos Pos.size];
      [now rewrite IH|now rewrite IH|reflexivity].
Qed.
Lemma t1 p : (53 < Zpos (Pos.size p))%Z -> (2 ^ 54 <= 2 ^ Zpos (Pos.size p))%Z.
Proof. intros H. apply Z.pow_le_mono_r; lia. Qed.
Lemma digits_bound (p : positive) :
  (Zpos p < 2 ^ 53)%Z -> (Zpos (digits2_pos p) <= 53)%Z.
Proof.
  intros Hp. rewrite digits_size.
  destruct (Z.le_gt_cases (Zpos (Pos.size p)) 53) as [H|H]; [exact H|exfalso].
  pose proof (t1 p H) as H2.
  pose proof (Pos.size_le p) as Hle.
  apply Pos2Z.pos_le_pos in Hle. rewrite Pos2Z.inj_pow in Hle.
  remember (2 ^ Zpos (Pos.size p))%Z as big.
  clear Heqbig.
  assert (E53 : (2 ^ 53 = 9007199254740992)%Z) by reflexivity.
  assert (E54 : (2 ^ 54 = 18014398509481984)%Z) by reflexivity.
  rewrite E53 in Hp. rewrite E54 in H2. lia.
Qed.

(** The double of the integer [p], for [p] below [2^53]. *)
Definition canon (p : positive) : spec_float :=
  S754_finite false (shl p (Z.to_N (53 - Zpos (digits2_pos p))))
              (Zpos (digits2_pos p) - 53).

Lemma fexp_small (d : Z) : (1 <= d <= 53)%Z -> fexp prec emax d = (d - 53)%Z.
Proof. intros H. unfold fexp, emin, prec, emax. lia. Qed.

Lemma round_aux_after s mx ex lx mc ec :
  shr_fexp prec emax mx ex lx = (exact (Zpos mc), ec) ->
  Zpos (digits2_pos mc) = 53%Z -> (-52 <= ec <= 0)%Z ->
  binary_round_aux prec emax s mx ex lx = S754_finite s mc ec.
Proof.
  intros E Hd He. unfold binary_round_aux. rewrite E.
  cbn [exact shr_m loc_of_shr_record round_nearest_even].
  assert (E2 : shr_fexp prec emax (Zpos mc) ec loc_Exact = (exact (Zpos mc), ec)).
  { unfold shr_fexp, Zdigits2. rewrite Hd.
    replace (fexp prec emax (53 + ec)) with ec
      by (unfold fexp, emin, prec, emax; lia).
    rewrite Z.sub_diag. reflexivity. }
  rewrite E2. cbn [exact shr_m].
  replace (ec <=? emax - prec)%Z with true
    by (symmetry; apply Z.leb_le; unfold emax, prec; lia).
  reflexivity.
Qed.

Lemma canon_digits p :
  (Zpos (digits2_pos p) <= 53)%Z ->
  Zpos (digits2_pos (shl p (Z.to_N (53 - Zpos (digits2_pos p))))) = 53%Z.
Proof. intros H. rewrite digits_shl. lia. Qed.

Lemma normalize_pos (p : positive) :
  (Zpos p < 2 ^ 53)%Z ->
  binary_normalize prec emax (Zpos p) 0 false = canon p.
Proof.
  intros Hp. pose proof (digits_bound p Hp) as Hd.
  unfold binary_normalize, binary_round.
  rewrite fexp_small by lia.
  assert (E : shl_align p 0 (Zpos (digits2_pos p) + 0 - 53)
              = (shl p (Z.to_N (53 - Zpos (digits2_pos p))),
                 (Zpos (digits2_pos p) - 53)%Z)).
  { unfold shl_align.
    destruct (Zpos (digits2_pos p) + 0 - 53 - 0)%Z as [|q|q] eqn:Eq; try lia.
    - replace (53 - Zpos (digits2_pos p))%Z with 0%Z by lia.
      cbn [Z.to_N shl]. f_equal; lia.
    - replace (53 - Zpos (digits2_pos p))%Z with (Zpos q) by lia.
      cbn [Z.to_N shl]. f_equal; lia. }
  rewrite E. apply round_aux_after; [|now apply canon_digits|lia].
  unfold shr_fexp, Zdigits2. rewrite canon_digits by exact Hd.
  rewrite fexp_small by lia.
  replace (53 + (Zpos (digits2_pos p) - 53) - 53 - (Zpos (digits2_pos p) - 53))%Z
    with 0%Z by lia.
  reflexivity.
Qed.

Lemma normalize_shifted (p : positive) :
  (Zpos p < 2 ^ 53)%Z ->
  binary_normalize prec emax (Zpos (shl p 52)) (-52) false = canon p.
Proof.
  intros Hp. pose proof (digits_bound p Hp) as Hd.
  unfold binary_normalize, binary_round.
  rewrite digits_shl.
  rewrite fexp_small by lia.
  assert (E : shl_align (shl p 52) (-52) (Zpos (digits2_pos p) + Z.of_N 52 + -52 - 53)
              = (shl p 52, (-52)%Z)).
  { unfold shl_align.
    destruct (Zpos (digits2_pos p) + Z.of_N 52 + -52 - 53 - -52)%Z eqn:Eq;
      try reflexivity; lia. }
  rewrite E. apply round_aux_after; [|now apply canon_digits|lia].
  unfold shr_fexp, Zdigits2. rewrite digits_shl.
  rewrite fexp_small by lia.
  unfold shr. cbn [shr_record_of_loc]. fold (exact (Zpos (shl p 52))).
  destruct (Zpos (digits2_pos p) + Z.of_N 52 + -52 - 53 - -52)%Z as [|n|n] eqn:Eq;
    try lia.
  - replace (53 - Zpos (digits2_pos p))%Z with 52%Z by lia.
    f_equal; lia.
  - replace (shl p 52)
      with (shl (shl p (Z.to_N (53 - Zpos (digits2_pos p)))) (Npos n))
      by (rewrite shl_add; f_equal; lia).
    rewrite shr_shl. f_equal; lia.
Qed.

Lemma shl_align_le m e e' :
  (e' <= e)%Z -> shl_align m e e' = (shl m (Z.to_N (e - e')), e').
Proof.
  intros H. unfold shl_align.
  destruct (e' - e)%Z as [|d|d] eqn:E; try lia.
  - replace (e - e')%Z with 0%Z by lia. cbn. f_equal; lia.
  - replace (e - e')%Z with (Zpos d) by lia. reflexivity.
Qed.

Lemma SFsub_canon_one (p : positive) :
  (Zpos p < 2 ^ 53)%Z ->
  SFsub prec emax (canon p) (S754_finite false 4503599627370496 (-52))
  = binary_normalize prec emax (Zpos p - 1) 0 false.
Proof.
  intros Hp. pose proof (digits_bound p Hp) as Hd.
  assert (Hd1 : (1 <= Zpos (digits2_pos p))%Z) by lia.
  unfold canon, SFsub. cbn [cond_Zopp].
  replace (Z.min (Zpos (digits2_pos p) - 53) (-52)) with (-52)%Z by lia.
  rewrite shl_align_le by lia. cbn [fst].
  rewrite shl_add.
  replace (Z.to_N (53 - Zpos (digits2_pos p))
           + Z.to_N (Zpos (digits2_pos p) - 53 - -52))%N with 52%N by lia.
  change (fst (shl_align 4503599627370496 (-52) (-52))) with 4503599627370496%positive.
  destruct (Pos.eq_dec p 1) as [->|Hne].
  - reflexivity.
  - assert (Hk : exists k, (Zpos p - 1 = Zpos k)%Z /\ (Zpos k < 2 ^ 53)%Z).
    { exists (Pos.pred p). split; lia. }
    destruct Hk as (k & Ek & Hk). rewrite Ek.
    replace (Zpos (shl p 52) - 4503599627370496)%Z with (Zpos (shl k 52)).
    + rewrite normalize_shifted, normalize_pos by exact Hk. reflexivity.
    + rewrite !Zpos_shl. change (2 ^ Z.of_N 52)%Z with 4503599627370496%Z. lia.
Qed.

Lemma Prim2SF_of_Z_pos (p : positive) :
  (Zpos p < 2 ^ 53)%Z -> Prim2SF (F64.of_Z (Zpos p)) = canon p.
Proof.
  intros Hp. unfold F64.of_Z.
  rewrite of_uint63_spec, Uint63.of_Z_spec.
  rewrite Z.mod_small.
  - now apply normalize_pos.
  - split; [lia|].
    assert (E53 : (2 ^ 53 = 9007199254740992)%Z) by reflexivity.
    rewrite E53 in Hp.
    change Uint63.wB with 9223372036854775808%Z. lia.
Qed.

Lemma of_Z_pred (p : positive) :
  (Zpos p < 2 ^ 53)%Z ->
  PrimFloat.sub (F64.of_Z (Zpos p)) 1 = F64.of_Z (Zpos p - 1).
Proof.
  intros Hp. apply Prim2SF_inj.
  rewrite sub_spec, Prim2SF_of_Z_pos, F64Arith.Prim2SF_one by exact Hp.
  unfold SF64sub. rewrite SFsub_canon_one by exact Hp.
  destruct (Pos.eq_dec p 1) as [->|Hne]; [reflexivity|].
  assert (Hk : exists k, (Zpos p - 1 = Zpos k)%Z /\ (Zpos k < 2 ^ 53)%Z).
  { exists (Pos.pred p). split; lia. }
  destruct Hk as (k & -> & Hk).
  rewrite Prim2SF_of_Z_pos by exact Hk. now apply normalize_pos.
Qed.

Lemma of_Z_pos_not_le_zero (p : positive) :
  (Zpos p < 2 ^ 53)%Z -> PrimFloat.leb (F64.of_Z (Zpos p)) 0 = false.
Proof.
  intros Hp. rewrite FloatAxioms.leb_spec, Prim2SF_of_Z_pos by exact Hp.
  reflexivity.
Qed.

End F64Integers.

Section MoreBinary64.
Context {libm : Libm float}.
Local Open Scope js_scope.

Lemma countsDown_integer (k : nat) :
  (Z.of_nat k < 2 ^ 53)%Z -> countsDown k (n_lit (Z.of_nat k)).
Proof.
  induction k as [|k IH]; intros Hk.
  - reflexivity.
  - cbn [countsDown].
    replace (Z.of_nat (S k)) with (Zpos (Pos.of_succ_nat k)) in * by lia.
    split.
    + now apply F64Integers.of_Z_pos_not_le_zero.
    + change (n_lit (Zpos (Pos.of_succ_nat k)) - n_lit 1)
        with (PrimFloat.sub (F64.of_Z (Zpos (Pos.of_succ_nat k))) 1).
      rewrite F64Integers.of_Z_pred by exact Hk.
      replace (Zpos (Pos.of_succ_nat k) - 1)%Z with (Z.of_nat k) by lia.
      apply IH. lia.
Qed.

(** X5.  With a depth that is an integer [k] from 0 to [2^53 - 1],
    [traceRay] returns, with at most [k] nested recursive calls: [k + 1]
    activations are enough and more change nothing. *)
Theorem traceRay_integer_depth
        (k : nat) (scene : Scene float) (O D : vec float) (tMin tMax : float)
        (fuel : nat) :
  (Z.of_nat k < 2 ^ 53)%Z -> (k < fuel)%nat ->
  exists c,
    traceRay fuel scene O D tMin tMax (n_lit (Z.of_nat k)) = Some c
    /\ traceRay (S k) scene O D tMin tMax (n_lit (Z.of_nat k)) = Some c.
Proof.
  intros Hk Hfuel. apply traceRay_countsDown; [|exact Hfuel].
  now apply countsDown_integer.
Qed.

Lemma length_mapi_from {A B : Type} (f : A -> nat -> B) (l : list A) :
  forall k, length (mapi_from k f l) = length l.
Proof. induction l as [|a l IH]; intros k; cbn; [reflexivity|now rewrite IH]. Qed.

Lemma length_add (V1 V2 : vec float) : length (add V1 V2) = length V1.
Proof. apply length_mapi_from. Qed.

Lemma length_scale (s : float) (V : vec float) : length (scale s V) = length V.
Proof. apply length_map. Qed.

Lemma traceRay_length
      (scene : Scene float) (O D : vec float) (tMin tMax depth : float)
      (fuel : nat) (c : vec float) :
  traceRay fuel scene O D tMin tMax depth = Some c ->
  match closestIntersection scene O D tMin tMax with
  | (None, _) => c = backgroundColor
  | (Some sphere, _) =>
    In sphere (spheres scene) /\ length c = length (color sphere)
  end.
Proof.
  intros H. destruct fuel as [|fuel]; [discriminate|].
  rewrite traceRay_unfold in H. unfold traceRayBody in H.
  destruct (closestIntersection scene O D tMin tMax) as [[sphere|] t] eqn:E.
  - split; [now destruct (closestIntersection_some O D tMin tMax scene sphere t E)|].
    destruct ((depth <=? n_lit 0) || (reflective sphere <=? n_lit 0)).
    + injection H as <-. unfold localColor. apply length_scale.
    + destruct (traceRay fuel scene _ _ _ _ _) as [c'|]; [|discriminate].
      injection H as <-. unfold blend.
      rewrite length_add, length_scale. unfold localColor.
      apply length_scale.
  - now injection H as <-.
Qed.

Lemma traceRay_three_channels
      (scene : Scene float) (O D : vec float) (tMin tMax depth : float)
      (fuel : nat) (c : vec float) :
  (forall sphere, In sphere (spheres scene) -> length (color sphere) = 3%nat) ->
  traceRay fuel scene O D tMin tMax depth = Some c -> length c = 3%nat.
Proof.
  intros Hall H. apply traceRay_length in H.
  destruct (closestIntersection scene O D tMin tMax) as [[sphere|] t].
  - destruct H as [Hin ->]. now apply Hall.
  - now subst c.
Qed.

(** X6.  The colour [traceRay] returns is the background colour itself on
    a miss, and on a hit it has as many channels as the colour of the
    sphere that is hit first, whatever the reflections add; so it has three
    channels when every sphere of the scene has. *)
Theorem traceRay_channels
        (scene : Scene float) (O D : vec float) (tMin tMax depth : float)
        (fuel : nat) (c : vec float) :
  traceRay fuel scene O D tMin tMax depth = Some c ->
  match fst (closestIntersection scene O D tMin tMax) with
  | None => c = backgroundColor
  | Some sphere => length c = length (color sphere)
  end
  /\ ((forall sphere, In sphere (spheres scene) -> length (color sphere) = 3%nat)
      -> length c = 3%nat).
Proof.
  intros H. split.
  - apply traceRay_length in H.
    destruct (closestIntersection scene O D tMin tMax) as [[sphere|] t];
      cbn [fst]; [now destruct H|exact H].
  - intros Hall. now apply traceRay_three_channels with (1 := Hall) in H.
Qed.

(** X7.  A point or directional light whose shadow ray has no root of any
    sphere strictly inside [(0.001, tMax)] is lit exactly as in the scene
    without spheres: an occluder at [t >= 1] on the ray to a point light,
    or behind the surface, casts no shadow. *)
Theorem lightStep_unshadowed
        (scene : Scene float) (P N V : vec float) (s i : float)
        (light : Light float) (L : vec float) (tMax : float) :
  shadowRay P light = Some (L, tMax) ->
  (forall sphere t, In sphere (spheres scene) -> isRoot P L sphere t ->
                    inside (dec 1 3) tMax t = false) ->
  lightStep scene P N V s i light
  = lightStep {| lights := lights scene; spheres := [] |} P N V s i light.
Proof.
  intros Hray Hno.
  destruct light as [a|a position|a direction]; cbn [shadowRay] in Hray;
    [discriminate| |]; injection Hray as <- <-; cbn [lightStep];
    apply shade_unshadowed;
    exact (f_equal fst (closestIntersection_none _ _ _ _ scene Hno)).
Qed.

End MoreBinary64.

(* ================================================================= *)
(** ** Binary64: sums with zeros *)

Module F64Zeros.

(** Equal, or two zeros. *)
Definition near (x v : float) : Prop := x = v \/ (isZero x /\ isZero v).

Lemma near_same {libm : Libm float} (x v : float) : near x v -> same x v.
Proof.
  intros [->|[[s Hs] [s' Hs']]]; [now left|right].
  cbn. rewrite FloatAxioms.eqb_spec, Hs, Hs'. reflexivity.
Qed.

Lemma add_zero_zero (x z : float) : isZero x -> isZero z -> isZero (PrimFloat.add x z).
Proof.
  intros [s Hs] [s' Hs']. unfold isZero. rewrite add_spec, Hs, Hs'.
  destruct s, s'; cbn; eauto.
Qed.

Lemma add_zero_right (x z : float) :
  isZero z -> PrimFloat.add x z = x \/ (isZero x /\ isZero (PrimFloat.add x z)).
Proof.
  intros Hz. destruct (Prim2SF x) as [s|s| |s m e] eqn:Hx.
  - right. assert (Hxz : isZero x) by (exists s; exact Hx).
    split; [exact Hxz|now apply add_zero_zero].
  - left. destruct Hz as [s' Hz]. apply Prim2SF_inj.
    rewrite add_spec, Hx, Hz. reflexivity.
  - left. destruct Hz as [s' Hz]. apply Prim2SF_inj.
    rewrite add_spec, Hx, Hz. reflexivity.
  - left. destruct Hz as [s' Hz]. apply Prim2SF_inj.
    rewrite add_spec, Hx, Hz. reflexivity.
Qed.

Lemma add_zero_left (z x : float) :
  isZero z -> PrimFloat.add z x = x \/ (isZero x /\ isZero (PrimFloat.add z x)).
Proof.
  intros Hz. destruct (Prim2SF x) as [s|s| |s m e] eqn:Hx.
  - right. assert (Hxz : isZero x) by (exists s; exact Hx).
    split; [exact Hxz|now apply add_zero_zero].
  - left. destruct Hz as [s' Hz]. apply Prim2SF_inj.
    rewrite add_spec, Hx, Hz. reflexivity.
  - left. destruct Hz as [s' Hz]. apply Prim2SF_inj.
    rewrite add_spec, Hx, Hz. reflexivity.
  - left. destruct Hz as [s' Hz]. apply Prim2SF_inj.
    rewrite add_spec, Hx, Hz. reflexivity.
Qed.

Lemma near_add_right (x v z : float) :
  near x v -> isZero z -> near (PrimFloat.add x z) v.
Proof.
  intros [->|[Hx Hv]] Hz.
  - destruct (add_zero_right v z Hz) as [->|[Hv Hs]]; [now left|now right].
  - right. split; [now apply add_zero_zero|exact Hv].
Qed.

Lemma near_add_left (z v : float) : isZero z -> near (PrimFloat.add z v) v.
Proof.
  intros Hz. destruct (add_zero_left z v Hz) as [->|[Hv Hs]];
    [now left|now right].
Qed.

Lemma isZero_zero : isZero 0.
Proof. now exists false. Qed.

Lemma isZero_mul_zero (x : float) :
  is_finite x = true -> isZero (PrimFloat.mul x 0).
Proof. intros H. exact (F64Arith.mul_zero_finite x H). Qed.

End F64Zeros.

(* ================================================================= *)
(** ** The frame on binary64 *)

Section FrameBinary64.
Context {libm : Libm float}.
Local Open Scope js_scope.

(** The entry of [mul(M, V)] for the row [r]. *)
Definition mulEntry (V r : vec float) : float :=
  n_lit 0 + at_ V 0 * at_ r 0 + at_ V 1 * at_ r 1 + at_ V 2 * at_ r 2.

Lemma mul_three_rows (V r0 r1 r2 : vec float) (rest : list (vec float)) :
  mul (r0 :: r1 :: r2 :: rest) V
  = Some [mulEntry V r0; mulEntry V r1; mulEntry V r2].
Proof. reflexivity. Qed.

(** X8.  For a vector [V] of three components, [mul(M, V)] throws when
    [M] has fewer than three rows, and otherwise returns [dot(V, r)] for
    each of the first three rows [r] of [M], to the last bit; further rows
    are not read. *)
Theorem mul_rows (M : list (vec float)) (V : vec float) :
  length V = 3%nat ->
  mul M V = if Nat.ltb (length M) 3 then None
            else Some (map (dot V) (firstn 3 M)).
Proof.
  intros Hlen. destruct V as [|v0 [|v1 [|v2 [|v3 V]]]]; try discriminate.
  destruct M as [|r0 [|r1 [|r2 rest]]]; reflexivity.
Qed.

(** X9.  Multiplying the identity matrix with a vector of three finite
    numbers gives the vector back, component by component the same number
    (up to the sign of a zero). *)
Theorem mul_identity (V : vec float) :
  length V = 3%nat ->
  Forall (fun x => is_finite x = true) V ->
  exists W, mul identity3 V = Some W /\ Forall2 same W V.
Proof.
  intros Hlen Hfin.
  destruct V as [|v0 [|v1 [|v2 [|v3 V]]]]; try discriminate.
  inversion Hfin as [|? ? H0 Hfin1]; subst.
  inversion Hfin1 as [|? ? H1 Hfin2]; subst.
  inversion Hfin2 as [|? ? H2 _]; subst.
  exists [mulEntry [v0; v1; v2] [n_lit 1; n_lit 0; n_lit 0];
          mulEntry [v0; v1; v2] [n_lit 0; n_lit 1; n_lit 0];
          mulEntry [v0; v1; v2] [n_lit 0; n_lit 0; n_lit 1]].
  split; [reflexivity|].
  pose proof (F64Zeros.isZero_mul_zero v0 H0) as Z0.
  pose proof (F64Zeros.isZero_mul_zero v1 H1) as Z1.
  pose proof (F64Zeros.isZero_mul_zero v2 H2) as Z2.
  apply Forall2_cons; [|apply Forall2_cons; [|apply Forall2_cons;
                                                [|apply Forall2_nil]]];
    apply F64Zeros.near_same; unfold mulEntry, at_;
    cbn [nth n_add n_mul n_lit F64.ops F64.of_Z].
  - change (PrimFloat.of_uint63 (Uint63.of_Z 1)) with 1%float.
    rewrite F64Arith.mul_one_r.
    do 2 (apply F64Zeros.near_add_right; [|assumption]).
    apply F64Zeros.near_add_left, F64Zeros.isZero_zero.
  - change (PrimFloat.of_uint63 (Uint63.of_Z 1)) with 1%float.
    rewrite F64Arith.mul_one_r.
    apply F64Zeros.near_add_right; [|assumption].
    destruct (F64Zeros.add_zero_left
                (PrimFloat.add 0 (PrimFloat.mul v0 0)) v1
                (F64Zeros.add_zero_zero _ _ F64Zeros.isZero_zero Z0))
      as [->|[Hv Hs]]; [now left|now right].
  - change (PrimFloat.of_uint63 (Uint63.of_Z 1)) with 1%float.
    rewrite F64Arith.mul_one_r.
    destruct (F64Zeros.add_zero_left
                (PrimFloat.add (PrimFloat.add 0 (PrimFloat.mul v0 0))
                               (PrimFloat.mul v1 0)) v2
                (F64Zeros.add_zero_zero _ _
                   (F64Zeros.add_zero_zero _ _ F64Zeros.isZero_zero Z0) Z1))
      as [->|[Hv Hs]]; [now left|now right].
Qed.

(** X10.  For a camera whose rotation has at least three rows, [render]
    computes a colour for every pixel and every size of the canvas: [mul]
    does not throw, and the call of [traceRay] with the default depth
    returns with at most three nested recursive calls.  The colour has
    three channels when every sphere of the scene has. *)
Theorem renderPixel_returns
        (scene : Scene float) (cam : Camera float) (cw ch x y : float) :
  (3 <= length (cam_rotation cam))%nat ->
  exists c,
    (forall fuel, (4 <= fuel)%nat ->
                  renderPixel fuel scene cam cw ch x y = Some (Some c))
    /\ ((forall sphere, In sphere (spheres scene) ->
                        length (color sphere) = 3%nat) ->
        length c = 3%nat).
Proof.
  intros Hrows. unfold renderPixel.
  destruct (cam_rotation cam) as [|r0 [|r1 [|r2 rest]]];
    cbn [length] in Hrows; try lia.
  rewrite mul_three_rows.
  destruct (traceRay_countsDown
              scene 3 defaultDepth ltac:(vm_compute; auto)
              (cam_position cam)
              [mulEntry (canvasToViewport cw ch x y) r0;
               mulEntry (canvasToViewport cw ch x y) r1;
               mulEntry (canvasToViewport cw ch x y) r2]
              (n_lit 1) n_infinity 4
              ltac:(lia)) as (c & Hc & _).
  exists c. split.
  - intros fuel Hfuel. f_equal.
    now apply traceRay_fuel_mono with 4%nat.
  - intros Hall. now apply traceRay_three_channels with (1 := Hall) in Hc.
Qed.

End FrameBinary64.

(* ================================================================= *)
(** ** Binary64: [NaN], commutativity, [x - x] *)

Module F64NaN.

Lemma Prim2SF_nan : Prim2SF nan = S754_nan.
Proof. reflexivity. Qed.

Lemma mul_nan_l (x : float) : PrimFloat.mul nan x = nan.
Proof. apply Prim2SF_inj. rewrite mul_spec, Prim2SF_nan. reflexivity. Qed.

Lemma add_nan_r (x : float) : PrimFloat.add x nan = nan.
Proof.
  apply Prim2SF_inj. rewrite add_spec, Prim2SF_nan.
  now destruct (Prim2SF x).
Qed.


Lemma ltb_nan_r (x : float) : PrimFloat.ltb x nan = false.
Proof.
  rewrite FloatAxioms.ltb_spec, Prim2SF_nan. unfold SFltb.
  now destruct (Prim2SF x).
Qed.

Lemma SFmul_comm (x y : spec_float) : SFmul prec emax x y = SFmul prec emax y x.
Proof.
  destruct x as [sx|sx| |sx mx ex], y as [sy|sy| |sy my ey]; cbn;
    try reflexivity; try (now rewrite xorb_comm).
  now rewrite xorb_comm, Pos.mul_comm, Z.add_comm.
Qed.

Lemma mul_comm (x y : float) : PrimFloat.mul x y = PrimFloat.mul y x.
Proof. apply Prim2SF_inj. rewrite !mul_spec. apply SFmul_comm. Qed.

Lemma mul_nan_r (x : float) : PrimFloat.mul x nan = nan.
Proof. rewrite mul_comm. apply mul_nan_l. Qed.

Lemma add_nan_l (x : float) : PrimFloat.add nan x = nan.
Proof. apply Prim2SF_inj. rewrite add_spec, Prim2SF_nan. reflexivity. Qed.

(** A finite number minus itself is the positive zero. *)
Lemma sub_diag (x : float) : is_finite x = true -> PrimFloat.sub x x = 0%float.
Proof.
  intros H. apply Prim2SF_inj. rewrite sub_spec.
  destruct (F64Arith.is_finite_spec x H) as [(s & ->)|(s & m & e & ->)].
  - now destruct s.
  - unfold SF64sub, SFsub. rewrite Z.min_id, Z.sub_diag. reflexivity.
Qed.

End F64NaN.

Section DegenerateBinary64.
Context {libm : Libm float}.
Local Open Scope js_scope.








Lemma sub_self (P : vec float) :
  Forall (fun x => is_finite x = true) P ->
  sub P P = map (fun _ => 0%float) P.
Proof.
  intros Hfin. unfold sub.
  rewrite mapi_at_combine by reflexivity.
  induction Hfin as [|x l Hx Hl IH]; [reflexivity|].
  cbn [combine map fst snd]. rewrite IH. f_equal.
  now apply F64NaN.sub_diag.
Qed.

Lemma dot_zeros (P : vec float) :
  dot (map (fun _ => 0%float) P) (map (fun _ => 0%float) P) = 0%float.
Proof.
  unfold dot, sum. rewrite mapi_at_combine by reflexivity.
  generalize (eq_refl : n_lit 0 = 0%float). generalize (n_lit 0) at 1 2.
  induction P as [|x l IH]; intros acc Hacc; cbn; [exact Hacc|].
  apply IH. now rewrite Hacc.
Qed.

(** X12.  When the hit point is the centre of the sphere itself (a sphere
    of radius 0) and its components are finite, the normal is not a unit
    vector: [P - center] is the zero vector, its length is 0, [1 / 0] is
    [+Infinity], and every component of the normal is [0 * Infinity], that
    is [NaN]. *)
Theorem hitNormal_at_centre (P : vec float) (sphere : Sphere float) :
  center sphere = P -> P <> [] ->
  Forall (fun x => is_finite x = true) P ->
  hitNormal P sphere = map (fun _ => nan) P /\ allNaN (hitNormal P sphere).
Proof.
  intros Hc Hne Hfin.
  assert (E : hitNormal P sphere = map (fun _ => nan) P).
  { unfold hitNormal, len. rewrite Hc, (sub_self P Hfin), dot_zeros.
    unfold scale. rewrite map_map. reflexivity. }
  split; [exact E|]. rewrite E. split.
  - destruct P; [congruence|discriminate].
  - clear. induction P; cbn; constructor; auto.
Qed.

End DegenerateBinary64.

Section SymmetryBinary64.
Context {libm : Libm float}.
Local Open Scope js_scope.

(** X13.  [dot] is symmetric, to the last bit, for two vectors of the same
    length. *)
Theorem dot_symmetric (V1 V2 : vec float) :
  length V1 = length V2 -> dot V1 V2 = dot V2 V1.
Proof.
  intros Hlen. unfold dot.
  rewrite !mapi_at_combine by congruence. f_equal.
  revert V2 Hlen. induction V1 as [|x V1 IH]; intros [|y V2] Hlen;
    cbn in Hlen; try discriminate; [reflexivity|].
  cbn [combine map fst snd]. rewrite IH by congruence. f_equal.
  apply F64NaN.mul_comm.
Qed.

Lemma mapi_from_ext {A B : Type} (f g : A -> nat -> B) (l : list A) :
  forall k,
    (forall a i, (k <= i < k + length l)%nat -> f a i = g a i) ->
    mapi_from k f l = mapi_from k g l.
Proof.
  induction l as [|a l IH]; intros k H; cbn; [reflexivity|].
  f_equal; [apply H; cbn; lia|].
  apply IH. intros b i Hi. apply H. cbn. lia.
Qed.

Lemma sum_from_nan (l : vec float) :
  fold_left (fun acc val => acc + val) l nan = nan.
Proof.
  induction l as [|x l IH]; [reflexivity|]. cbn [fold_left].
  change (nan + x) with (PrimFloat.add nan x).
  now rewrite F64NaN.add_nan_l.
Qed.

Lemma sum_products_short (V2 : vec float) (l : vec float) :
  forall k acc,
    l <> [] -> (length V2 < k + length l)%nat ->
    fold_left (fun acc val => acc + val)
              (mapi_from k (fun val i => val * at_ V2 i) l) acc = nan.
Proof.
  induction l as [|x l IH]; intros k acc Hne H; [congruence|].
  cbn [mapi_from fold_left length] in *.
  destruct l as [|y l].
  - cbn [mapi_from fold_left]. unfold at_.
    rewrite nth_overflow by (cbn [length] in H; lia).
    change (acc + x * n_nan) with (PrimFloat.add acc (PrimFloat.mul x nan)).
    now rewrite F64NaN.mul_nan_r, F64NaN.add_nan_r.
  - apply IH; [discriminate|]. cbn [length] in *. lia.
Qed.

(** X14.  For vectors of different lengths [dot] is not symmetric: the
    products run over the first vector, so a shorter second vector makes
    the result [NaN], and the extra components of a longer one are
    ignored. *)
Theorem dot_unequal_lengths (V1 V2 : vec float) :
  (length V2 < length V1)%nat ->
  dot V1 V2 = n_nan
  /\ dot V2 V1 = dot V2 (firstn (length V2) V1).
Proof.
  intros Hlen. split.
  - unfold dot, sum, mapi. apply sum_products_short; [|exact Hlen].
    destruct V1; [cbn in Hlen; lia|discriminate].
  - unfold dot, mapi. f_equal. apply mapi_from_ext.
    intros a i Hi. f_equal. unfold at_.
    rewrite <- (firstn_skipn (length V2) V1) at 1.
    apply app_nth1. rewrite length_firstn. lia.
Qed.

End SymmetryBinary64.

(* ================================================================= *)
(** ** Matte spheres *)

Section MatteBinary64.
Context {libm : Libm float}.
Local Open Scope js_scope.

Lemma shade_matte_view scene P N V V' i a L tMax :
  shade scene P N V (- n_lit 1) i a L tMax
  = shade scene P N V' (- n_lit 1) i a L tMax.
Proof.
  unfold shade.
  destruct (fst (closestIntersection scene P L (dec 1 3) tMax));
    reflexivity.
Qed.

(** X15.  With the specular exponent [-1] the view vector is not read:
    the intensity [computeLighting] returns is the same from every
    direction of view. *)
Theorem computeLighting_matte_view
        (scene : Scene float) (P N V V' : vec float) :
  computeLighting scene P N V (- n_lit 1)
  = computeLighting scene P N V' (- n_lit 1).
Proof.
  unfold computeLighting. generalize (n_lit 0 : float).
  induction (lights scene) as [|light l IH]; intros i; [reflexivity|].
  cbn [fold_left].
  replace (lightStep scene P N V' (- n_lit 1) i light)
    with (lightStep scene P N V (- n_lit 1) i light); [apply IH|].
  destruct light as [a|a position|a direction]; cbn [lightStep];
    [reflexivity| |]; apply shade_matte_view.
Qed.

End MatteBinary64.

(* ================================================================= *)
(** ** Binary64: zeros and [NaN] under the operations *)

Module F64ZeroNaN.

Lemma of_isZero (x : float) : isZero x -> zeroOrNaN x.
Proof. intros [s H]. unfold zeroOrNaN. now rewrite H. Qed.

Lemma of_nan : zeroOrNaN nan.
Proof. exact I. Qed.

Lemma is_nan (x : float) : Prim2SF x = S754_nan -> x = nan.
Proof. intros H. apply Prim2SF_inj. now rewrite H. Qed.

Lemma mul_r (x z : float) : zeroOrNaN z -> zeroOrNaN (PrimFloat.mul x z).
Proof.
  unfold zeroOrNaN. rewrite mul_spec.
  destruct (Prim2SF z); try contradiction; intros _;
    destruct (Prim2SF x); exact I.
Qed.

Lemma mul_l (z x : float) : zeroOrNaN z -> zeroOrNaN (PrimFloat.mul z x).
Proof. rewrite F64NaN.mul_comm. apply mul_r. Qed.

Lemma mul_zero_zero (x z : float) :
  isZero x -> isZero z -> isZero (PrimFloat.mul x z).
Proof.
  intros [s Hs] [s' Hs']. unfold isZero. rewrite mul_spec, Hs, Hs'.
  cbn. eauto.
Qed.

Lemma mul_two_zero (z : float) : isZero z -> isZero (PrimFloat.mul 2 z).
Proof.
  intros [s Hs]. unfold isZero. rewrite mul_spec, Hs. cbn. eauto.
Qed.

Lemma add (x y : float) :
  zeroOrNaN x -> zeroOrNaN y -> zeroOrNaN (PrimFloat.add x y).
Proof.
  unfold zeroOrNaN. rewrite add_spec.
  destruct (Prim2SF x) as [[|]| | |]; try contradiction; intros _;
    destruct (Prim2SF y) as [[|]| | |]; try contradiction; intros _; exact I.
Qed.

Lemma sub (x y : float) :
  zeroOrNaN x -> zeroOrNaN y -> zeroOrNaN (PrimFloat.sub x y).
Proof.
  unfold zeroOrNaN. rewrite sub_spec.
  destruct (Prim2SF x) as [[|]| | |]; try contradiction; intros _;
    destruct (Prim2SF y) as [[|]| | |]; try contradiction; intros _; exact I.
Qed.

Lemma opp (x : float) : zeroOrNaN x -> zeroOrNaN (PrimFloat.opp x).
Proof.
  unfold zeroOrNaN. rewrite opp_spec.
  destruct (Prim2SF x); try contradiction; intros _; exact I.
Qed.

Lemma sqrt (x : float) : zeroOrNaN x -> zeroOrNaN (PrimFloat.sqrt x).
Proof.
  unfold zeroOrNaN. rewrite sqrt_spec.
  destruct (Prim2SF x); try contradiction; intros _; exact I.
Qed.

Lemma ltb_zero (x : float) : zeroOrNaN x -> PrimFloat.ltb x 0 = false.
Proof.
  unfold zeroOrNaN. rewrite FloatAxioms.ltb_spec.
  destruct (Prim2SF x); try contradiction; intros _; reflexivity.
Qed.

Lemma zero_ltb (x : float) : zeroOrNaN x -> PrimFloat.ltb 0 x = false.
Proof.
  unfold zeroOrNaN. rewrite FloatAxioms.ltb_spec.
  destruct (Prim2SF x); try contradiction; intros _; reflexivity.
Qed.

Lemma div_zero (x z : float) :
  zeroOrNaN x -> isZero z -> PrimFloat.div x z = nan.
Proof.
  unfold zeroOrNaN. intros Hx [s Hz]. apply is_nan.
  rewrite div_spec, Hz.
  destruct (Prim2SF x); try contradiction; reflexivity.
Qed.

End F64ZeroNaN.

(* ================================================================= *)
(** ** Rays with the zero vector as direction *)

Section ZeroDirection.
Context {libm : Libm float}.
Local Open Scope js_scope.

Lemma Forall_mapi_from {A B : Type} (Q : B -> Prop) (f : A -> nat -> B)
      (l : list A) :
  (forall a i, In a l -> Q (f a i)) -> forall k, Forall Q (mapi_from k f l).
Proof.
  induction l as [|a l IH]; intros H k; cbn.
  - apply Forall_nil.
  - apply Forall_cons; [apply H; now left|].
    apply IH. intros b i Hb. apply H. now right.
Qed.

Lemma sum_zeroOrNaN (l : vec float) :
  Forall zeroOrNaN l ->
  forall acc, zeroOrNaN acc ->
              zeroOrNaN (fold_left (fun acc val => acc + val) l acc).
Proof.
  induction 1 as [|x l Hx Hl IH]; intros acc Hacc; [exact Hacc|].
  cbn [fold_left]. apply IH. now apply F64ZeroNaN.add.
Qed.

Lemma sum_isZero (l : vec float) :
  Forall isZero l ->
  forall acc, isZero acc ->
              isZero (fold_left (fun acc val => acc + val) l acc).
Proof.
  induction 1 as [|x l Hx Hl IH]; intros acc Hacc; [exact Hacc|].
  cbn [fold_left]. apply IH. now apply F64Zeros.add_zero_zero.
Qed.

Lemma at_zeros (D : vec float) (i : nat) :
  Forall isZero D -> zeroOrNaN (at_ D i).
Proof.
  intros HD. unfold at_.
  destruct (nth_in_or_default i D n_nan) as [Hin| ->].
  - apply F64ZeroNaN.of_isZero.
    exact (proj1 (Forall_forall isZero D) HD _ Hin).
  - exact F64ZeroNaN.of_nan.
Qed.

(** [dot(X, D)] and [dot(D, X)] for a zero vector [D]. *)
Lemma dot_zeros_r (X D : vec float) : Forall isZero D -> zeroOrNaN (dot X D).
Proof.
  intros HD. unfold dot, sum. apply sum_zeroOrNaN.
  - apply Forall_mapi_from. intros a i _.
    apply F64ZeroNaN.mul_r. now apply at_zeros.
  - now apply F64ZeroNaN.of_isZero, F64Zeros.isZero_zero.
Qed.

Lemma dot_zeroOrNaN_l (X Y : vec float) :
  Forall zeroOrNaN X -> zeroOrNaN (dot X Y).
Proof.
  intros HX. unfold dot, sum, mapi. apply sum_zeroOrNaN.
  - generalize 0%nat. induction HX as [|x l Hx Hl IH]; intros k; cbn.
    + apply Forall_nil.
    + apply Forall_cons; [now apply F64ZeroNaN.mul_l|apply IH].
  - now apply F64ZeroNaN.of_isZero, F64Zeros.isZero_zero.
Qed.

Lemma dot_zeros_self (D : vec float) : Forall isZero D -> isZero (dot D D).
Proof.
  intros HD. unfold dot, sum. rewrite mapi_at_combine by reflexivity.
  apply sum_isZero; [|exact F64Zeros.isZero_zero].
  apply Forall_forall. intros x Hx. apply in_map_iff in Hx as ([a b] & <- & Hin).
  cbn [fst snd].
  pose proof (proj1 (Forall_forall isZero D) HD) as Hall.
  apply F64ZeroNaN.mul_zero_zero.
  - apply Hall. exact (in_combine_l _ _ _ _ Hin).
  - apply Hall. exact (in_combine_r _ _ _ _ Hin).
Qed.

Lemma intersectRaySphere_zeros (O D : vec float) (sphere : Sphere float) :
  Forall isZero D -> intersectRaySphere O D sphere = (n_nan, n_nan).
Proof.
  intros HD.
  destruct (intersectRaySphere_formula O D sphere) as (Edisc & _ & Hroots).
  cbv zeta in Edisc, Hroots.
  pose proof (dot_zeros_self D HD) as Hk1. fold (coeff_k1 D) in Hk1.
  assert (Hk2 : zeroOrNaN (coeff_k2 O D sphere)).
  { unfold coeff_k2. apply F64ZeroNaN.mul_r. now apply dot_zeros_r. }
  assert (Hdisc : zeroOrNaN (discriminant O D sphere)).
  { rewrite Edisc.
    change (coeff_k2 O D sphere ** n_lit 2)
      with (PrimFloat.mul (coeff_k2 O D sphere) (coeff_k2 O D sphere)).
    apply F64ZeroNaN.sub.
    - now apply F64ZeroNaN.mul_r.
    - apply F64ZeroNaN.mul_l, F64ZeroNaN.mul_r.
      now apply F64ZeroNaN.of_isZero. }
  rewrite Hroots by (exact (F64ZeroNaN.ltb_zero _ Hdisc)).
  assert (Hden : isZero (n_lit 2 * coeff_k1 D))
    by (exact (F64ZeroNaN.mul_two_zero _ Hk1)).
  f_equal; apply F64ZeroNaN.div_zero; try exact Hden.
  - apply F64ZeroNaN.add; [now apply F64ZeroNaN.opp|now apply F64ZeroNaN.sqrt].
  - apply F64ZeroNaN.sub; [now apply F64ZeroNaN.opp|now apply F64ZeroNaN.sqrt].
Qed.

Lemma inside_nan (tMin tMax : float) : inside tMin tMax n_nan = false.
Proof.
  unfold inside. change (n_nan >? tMin) with (PrimFloat.ltb tMin nan).
  now rewrite F64NaN.ltb_nan_r.
Qed.

Lemma closestIntersection_zeros
      (scene : Scene float) (O D : vec float) (tMin tMax : float) :
  Forall isZero D ->
  closestIntersection scene O D tMin tMax = (None, n_infinity).
Proof.
  intros HD. apply closestIntersection_none.
  intros sphere t _ Hr. unfold isRoot in Hr.
  rewrite (intersectRaySphere_zeros O D sphere HD) in Hr.
  destruct Hr as [-> | ->]; apply inside_nan.
Qed.

(** X16.  A ray whose direction is the zero vector meets nothing: both
    roots [intersectRaySphere] returns are [NaN] for every origin and
    every sphere, [closestIntersection] finds no sphere in any interval,
    and [traceRay] returns the background colour. *)
Theorem traceRay_zero_direction
        (scene : Scene float) (O D : vec float) (tMin tMax : float) :
  Forall isZero D ->
  (forall sphere, intersectRaySphere O D sphere = (n_nan, n_nan))
  /\ closestIntersection scene O D tMin tMax = (None, n_infinity)
  /\ forall fuel depth,
      traceRay (S fuel) scene O D tMin tMax depth = Some backgroundColor.
Proof.
  intros HD.
  pose proof (closestIntersection_zeros scene O D tMin tMax HD) as E.
  split; [|split].
  - intros sphere. now apply intersectRaySphere_zeros.
  - exact E.
  - intros fuel depth. rewrite traceRay_unfold. apply traceRayBody_miss.
    now rewrite E.
Qed.

Lemma reflectRay_zeros (L N : vec float) :
  Forall isZero L -> Forall zeroOrNaN (reflectRay L N).
Proof.
  intros HL. unfold reflectRay, sub, mapi, scale.
  apply Forall_mapi_from. intros a i Ha.
  apply in_map_iff in Ha as (val & <- & _).
  apply F64ZeroNaN.sub; [|now apply at_zeros].
  apply F64ZeroNaN.mul_r, F64ZeroNaN.mul_r. now apply dot_zeros_r.
Qed.

Lemma shade_zeros scene P N V s i a L tMax :
  Forall isZero L -> shade scene P N V s i a L tMax = i.
Proof.
  intros HL. unfold shade.
  rewrite (closestIntersection_zeros scene P L (dec 1 3) tMax HL).
  cbn [fst].
  change (dot N L >? n_lit 0) with (PrimFloat.ltb 0 (dot N L)).
  rewrite (F64ZeroNaN.zero_ltb _ (dot_zeros_r N L HL)).
  destruct (s === - n_lit 1); [reflexivity|].
  change (dot (reflectRay L N) V >? n_lit 0)
    with (PrimFloat.ltb 0 (dot (reflectRay L N) V)).
  now rewrite (F64ZeroNaN.zero_ltb
                 _ (dot_zeroOrNaN_l _ V (reflectRay_zeros L N HL))).
Qed.

(** X17.  A light whose ray to the point is the zero vector (a point
    light at the point itself, a directional light with the direction
    zero) adds nothing to the intensity, whatever the scene, the normal and
    the specular exponent: the shadow ray meets nothing, and neither the
    diffuse nor the specular test passes. *)
Theorem lightStep_zero_ray
        (scene : Scene float) (P N V : vec float) (s i : float)
        (light : Light float) (L : vec float) (tMax : float) :
  shadowRay P light = Some (L, tMax) ->
  Forall isZero L ->
  lightStep scene P N V s i light = i.
Proof.
  intros Hray HL.
  destruct light as [a|a position|a direction]; cbn [shadowRay] in Hray;
    [discriminate| |]; injection Hray as <- <-; cbn [lightStep];
    now apply shade_zeros.
Qed.

End ZeroDirection.

(* ================================================================= *)
(** ** Closed examples of the further properties *)

Section MoreExamples.
#[local] Existing Instance F64.no_pow.

(** Witness of X2: the interval [(4, 4)] is empty although 4 is a root. *)
Lemma closestIntersection_empty_interval_red :
  closestIntersection redScene eye ahead (n_lit 4) (n_lit 4)
  = (None, n_infinity)
  /\ forall fuel depth,
      traceRay (S fuel) redScene eye ahead (n_lit 4) (n_lit 4) depth
      = Some backgroundColor.
Proof.
  apply (closestIntersection_empty_interval redScene eye ahead
                                            (n_lit 4) (n_lit 4)).
  reflexivity.
Defined.

(** Witness of X4: two spheres in one place, the first one is returned. *)
Lemma closestIntersection_first_wins_twin :
  exists before after,
    candidates eye ahead (spheres twinScene)
    = before ++ (redSphere, 4%float) :: after
    /\ (forall c, In c before -> inside (n_lit 1) n_infinity (snd c) = true ->
                  n_lt 4%float (snd c) = true)
    /\ (forall c, In c after -> inside (n_lit 1) n_infinity (snd c) = true ->
                  n_lt (snd c) 4%float = false).
Proof.
  apply (closestIntersection_first_wins twinScene eye ahead
                                        (n_lit 1) n_infinity redSphere 4%float).
  vm_compute. reflexivity.
Defined.

(** Witness of X5: depth 7 inside the mirror sphere. *)
Lemma traceRay_integer_depth_hall :
  exists c,
    traceRay 20 hallScene eye ahead (dec 1 3) n_infinity (n_lit (Z.of_nat 7))
    = Some c
    /\ traceRay 8 hallScene eye ahead (dec 1 3) n_infinity (n_lit (Z.of_nat 7))
       = Some c.
Proof.
  apply (traceRay_integer_depth 7 hallScene eye ahead (dec 1 3) n_infinity 20).
  - reflexivity.
  - lia.
Defined.

(** Witness of X6: the colour of the one-sphere scenario. *)
Lemma traceRay_channels_red :
  match fst (closestIntersection redScene eye ahead (n_lit 1) n_infinity) with
  | None => [255%float; 0%float; 0%float] = backgroundColor
  | Some sphere => length [255%float; 0%float; 0%float] = length (color sphere)
  end
  /\ ((forall sphere, In sphere (spheres redScene) ->
                      length (color sphere) = 3%nat)
      -> length [255%float; 0%float; 0%float] = 3%nat).
Proof.
  apply (traceRay_channels redScene eye ahead (n_lit 1) n_infinity
                           defaultDepth 1 [255%float; 0%float; 0%float]).
  vm_compute. reflexivity.
Defined.

(** Witness of X7: [nearLamp] stands in front of [redSphere], whose roots
    on the shadow ray are 2 and 4/3. *)
Lemma lightStep_nearLamp_unshadowed :
  lightStep redScene eye north north (n_lit 10) (n_lit 5) nearLamp
  = lightStep {| lights := lights redScene; spheres := [] |}
              eye north north (n_lit 10) (n_lit 5) nearLamp.
Proof.
  apply (lightStep_unshadowed redScene eye north north (n_lit 10) (n_lit 5)
           nearLamp (sub [n_lit 0; n_lit 0; n_lit 3] eye) (n_lit 1)).
  - reflexivity.
  - intros sphere t [<-|[]] [->| ->]; vm_compute; reflexivity.
Defined.


(** Witness of X12: the centre of [redSphere]. *)
Lemma hitNormal_at_centre_red :
  hitNormal [n_lit 0; n_lit 0; n_lit 5] redSphere
  = map (fun _ => nan) [n_lit 0; n_lit 0; n_lit 5]
  /\ allNaN (hitNormal [n_lit 0; n_lit 0; n_lit 5] redSphere).
Proof.
  apply (hitNormal_at_centre [n_lit 0; n_lit 0; n_lit 5] redSphere).
  - reflexivity.
  - discriminate.
  - repeat constructor.
Defined.

(** Witness of X9: the identity applied to [(1, 2, 3)]. *)
Lemma mul_identity_123 :
  exists W, mul identity3 [n_lit 1; n_lit 2; n_lit 3] = Some W
            /\ Forall2 same W [n_lit 1; n_lit 2; n_lit 3].
Proof.
  apply (mul_identity [n_lit 1; n_lit 2; n_lit 3]).
  - reflexivity.
  - repeat constructor.
Defined.

(** Witness of X10: the camera and the scene of the source, on a canvas
    of 600 by 600. *)
Lemma renderPixel_returns_source :
  exists c,
    (forall fuel, (4 <= fuel)%nat ->
                  renderPixel fuel sourceScene camera (n_lit 600) (n_lit 600)
                              (n_lit 0) (n_lit 0) = Some (Some c))
    /\ ((forall sphere, In sphere (spheres sourceScene) ->
                        length (color sphere) = 3%nat) ->
        length c = 3%nat).
Proof.
  apply (renderPixel_returns sourceScene camera (n_lit 600) (n_lit 600)
                             (n_lit 0) (n_lit 0)).
  cbn. lia.
Defined.

(** Witness of X8: the rotation of the source applied to [(1, 2, 3)]. *)
Lemma mul_rows_camera :
  mul (cam_rotation camera) [n_lit 1; n_lit 2; n_lit 3]
  = if Nat.ltb (length (cam_rotation (num := float) camera)) 3 then None
    else Some (map (dot [n_lit 1; n_lit 2; n_lit 3])
                   (firstn 3 (cam_rotation camera))).
Proof.
  apply (mul_rows (cam_rotation camera) [n_lit 1; n_lit 2; n_lit 3]).
  reflexivity.
Defined.

(** Witness of X13: two vectors with decimal components. *)
Lemma dot_symmetric_tenths : dot tilted tenths = dot tenths tilted.
Proof. apply (dot_symmetric tilted tenths). reflexivity. Defined.

(** Witness of X14: a vector of three components and one of two. *)
Lemma dot_unequal_lengths_tenths :
  dot tenths [n_lit 1; n_lit 2] = n_nan
  /\ dot [n_lit 1; n_lit 2] tenths
     = dot [n_lit 1; n_lit 2] (firstn (length [n_lit 1; n_lit 2]) tenths).
Proof.
  apply (dot_unequal_lengths tenths [n_lit 1; n_lit 2]). cbn. lia.
Defined.

(** Witness of X16: the zero direction from [eye], which lies outside
    [redSphere]; the third component is the negative zero. *)
Lemma traceRay_zero_direction_red :
  (forall sphere,
      intersectRaySphere eye [n_lit 0; n_lit 0; (-0)%float] sphere
      = (n_nan, n_nan))
  /\ closestIntersection redScene eye [n_lit 0; n_lit 0; (-0)%float]
                         (n_lit 1) n_infinity
     = (None, n_infinity)
  /\ forall fuel depth,
      traceRay (S fuel) redScene eye [n_lit 0; n_lit 0; (-0)%float]
               (n_lit 1) n_infinity depth
      = Some backgroundColor.
Proof.
  apply (traceRay_zero_direction redScene eye
                                 [n_lit 0; n_lit 0; (-0)%float]
                                 (n_lit 1) n_infinity).
  repeat constructor; eexists; reflexivity.
Defined.

(** Witness of X17: [ownLamp] seen from [eye]. *)
Lemma lightStep_zero_ray_own :
  lightStep redScene eye north north (n_lit 10) (n_lit 5) ownLamp = n_lit 5.
Proof.
  apply (lightStep_zero_ray redScene eye north north (n_lit 10) (n_lit 5)
                            ownLamp (sub [n_lit 0; n_lit 0; n_lit 0] eye)
                            (n_lit 1)).
  - reflexivity.
  - repeat constructor; eexists; reflexivity.
Defined.

End MoreExamples.
